(** * The repeat-graph driver ([src/repeat_graph/main.cpp])

    The driver is orchestration glue: it parses the command line, stores
    three configuration values, loads the sequence files and then calls
    the graph components in a fixed order.  The components themselves
    ([RepeatGraph], [GraphProcessor], [ReadAligner], [MultiplicityInferer],
    [RepeatResolver], [ContigExtender], [OutputGenerator], [Logger],
    [Config], [SequenceContainer]) and the C library ([getopt], [atoi])
    live outside this file.  They are modelled by the calls the driver
    makes on them: a run of the driver produces the chronological list of
    these calls, and whatever a collaborator returns is a function of the
    calls made so far.

    A call on a collaborator is taken to return.  The one exception the
    driver handles, [SequenceContainer::ParseException] out of
    [loadFromFile], is modelled; so is [exit] out of [parseArgs].  The
    handlers installed on lines 154-155 run only on a segmentation fault
    or an unhandled exception and are not modelled beyond their
    installation. *)

From Stdlib Require Import ZArith Ascii String List Lia Sorted.
From stdpp Require Import base decidable option list strings.

Import ListNotations.
Local Open Scope string_scope.
Local Open Scope list_scope.

(** ** Calls on the collaborators *)

(** The two [SequenceContainer] objects declared in [main]. *)
Inductive Container := seqAssembly | seqReads.

(** How [SequenceContainer::loadFromFile] comes back: normally, or by
    raising [SequenceContainer::ParseException] (with its [what()]). *)
Inductive LoadResult :=
| Loaded
| ParseException (what : string).

(** One constructor per call site kind in [main.cpp].  [Paths] is the type
    of a collection of graph paths (the result of [getEdgesPaths] and
    [getUnbranchingPaths]), [Coverage] the type of [getMeanCoverage]'s
    result; both are opaque to the driver. *)
Inductive Call (Paths Coverage : Type) :=
(* process set-up, lines 154-155 *)
| signal_SIGSEGV
| set_terminate
(* the printUsage lambda of parseArgs; the argument is argv[0] *)
| printUsage (argv0 : option string)
(* assignments to the Parameters singleton, lines 171-173 *)
| Parameters_set_minimumOverlap (v : Z)
| Parameters_set_kmerSize (v : Z)
| Parameters_set_numThreads (v : Z)
(* Logger, iostream, Config *)
| Logger_setDebugging (b : bool)
| Logger_setOutputFile (file : string)
| Logger_debug (msg : string)
| Logger_info (msg : string)
| Logger_error (msg : string)
| sync_with_stdio (b : bool)
| Config_load (path : string)
(* SequenceContainer *)
| loadFromFile (c : Container) (path : string) (r : LoadResult)
(* construction of the pipeline objects, lines 199-202, 212, 219, 232 *)
| RepeatGraph_ctor (asm : Container)
| GraphProcessor_ctor (asm reads : Container)
| ReadAligner_ctor (asm reads : Container)
| OutputGenerator_ctor (asm reads : Container)
| MultiplicityInferer_ctor (asm reads : Container)
| RepeatResolver_ctor (asm reads : Container)
| ContigExtender_ctor (asm reads : Container) (meanCoverage : Coverage)
(* RepeatGraph, GraphProcessor, ReadAligner *)
| rg_build
| proc_getEdgesPaths
| proc_simplify
| aligner_alignReads
(* MultiplicityInferer *)
| multInf_estimateCoverage
| multInf_removeUnsupportedEdges
| multInf_removeUnsupportedConnections
| multInf_separateHaplotypes
| multInf_getMeanCoverage
(* RepeatResolver *)
| resolver_findRepeats
| resolver_resolveRepeats
| resolver_fixLongEdges
(* ContigExtender *)
| extender_generateUnbranchingPaths
| extender_generateContigs (graphContinue : bool)
| extender_outputContigs (file : string)
| extender_outputStatsTable (file : string)
| extender_outputScaffoldConnections (file : string)
| extender_getUnbranchingPaths
(* OutputGenerator *)
| outGen_outputDot (paths : Paths) (file : string)
| outGen_outputGfa (paths : Paths) (file : string)
| outGen_outputFasta (paths : Paths) (file : string)
| outGen_dumpRepeats (paths : Paths) (file : string).

Arguments signal_SIGSEGV {Paths Coverage}.
Arguments set_terminate {Paths Coverage}.
Arguments printUsage {Paths Coverage} argv0.
Arguments Parameters_set_minimumOverlap {Paths Coverage} v.
Arguments Parameters_set_kmerSize {Paths Coverage} v.
Arguments Parameters_set_numThreads {Paths Coverage} v.
Arguments Logger_setDebugging {Paths Coverage} b.
Arguments Logger_setOutputFile {Paths Coverage} file.
Arguments Logger_debug {Paths Coverage} msg.
Arguments Logger_info {Paths Coverage} msg.
Arguments Logger_error {Paths Coverage} msg.
Arguments sync_with_stdio {Paths Coverage} b.
Arguments Config_load {Paths Coverage} path.
Arguments loadFromFile {Paths Coverage} c path r.
Arguments RepeatGraph_ctor {Paths Coverage} asm.
Arguments GraphProcessor_ctor {Paths Coverage} asm reads.
Arguments ReadAligner_ctor {Paths Coverage} asm reads.
Arguments OutputGenerator_ctor {Paths Coverage} asm reads.
Arguments MultiplicityInferer_ctor {Paths Coverage} asm reads.
Arguments RepeatResolver_ctor {Paths Coverage} asm reads.
Arguments ContigExtender_ctor {Paths Coverage} asm reads meanCoverage.
Arguments rg_build {Paths Coverage}.
Arguments proc_getEdgesPaths {Paths Coverage}.
Arguments proc_simplify {Paths Coverage}.
Arguments aligner_alignReads {Paths Coverage}.
Arguments multInf_estimateCoverage {Paths Coverage}.
Arguments multInf_removeUnsupportedEdges {Paths Coverage}.
Arguments multInf_removeUnsupportedConnections {Paths Coverage}.
Arguments multInf_separateHaplotypes {Paths Coverage}.
Arguments multInf_getMeanCoverage {Paths Coverage}.
Arguments resolver_findRepeats {Paths Coverage}.
Arguments resolver_resolveRepeats {Paths Coverage}.
Arguments resolver_fixLongEdges {Paths Coverage}.
Arguments extender_generateUnbranchingPaths {Paths Coverage}.
Arguments extender_generateContigs {Paths Coverage} graphContinue.
Arguments extender_outputContigs {Paths Coverage} file.
Arguments extender_outputStatsTable {Paths Coverage} file.
Arguments extender_outputScaffoldConnections {Paths Coverage} file.
Arguments extender_getUnbranchingPaths {Paths Coverage}.
Arguments outGen_outputDot {Paths Coverage} paths file.
Arguments outGen_outputGfa {Paths Coverage} paths file.
Arguments outGen_outputFasta {Paths Coverage} paths file.
Arguments outGen_dumpRepeats {Paths Coverage} paths file.

(** The calls made so far, oldest first. *)
Definition History (Paths Coverage : Type) := list (Call Paths Coverage).

(** ** What the driver takes from outside *)

(** A whole option scan by [getopt]: the successive values it returns
    before [-1], each with the [optarg] it leaves, then the final [optind]
    and the argument vector as [getopt] leaves it (GNU [getopt] moves the
    non-options to the end, POSIX [getopt] leaves the vector alone).
    The driver leaves [opterr] alone, so [getopt] itself writes a
    diagnostic to [stderr] for an unknown option or a missing argument;
    this is the C library's doing and is not recorded: a trace holds the
    calls the driver makes. *)
Record GetoptRun := {
  returned : list (ascii * string);
  optind : nat;
  argv_final : list string
}.

Record Externals (Paths Coverage : Type) := {
  (* the _DEBUG macro: defined or not *)
  DEBUG_defined : bool;
  (* __DATE__ and __TIME__ *)
  DATE : string;
  TIME : string;
  (* libc *)
  getopt : list string -> string -> GetoptRun;
  getopt_permutes : forall argv optString,
    argv_final (getopt argv optString) ≡ₚ argv;
  atoi : string -> Z;
  (* utility of the repository, declared outside this file *)
  splitString : string -> ascii -> list string;
  (* results of the collaborators, given the calls made before *)
  SequenceContainer_loadFromFile :
    History Paths Coverage -> Container -> string -> LoadResult;
  GraphProcessor_getEdgesPaths : History Paths Coverage -> Paths;
  MultiplicityInferer_getMeanCoverage : History Paths Coverage -> Coverage;
  ContigExtender_getUnbranchingPaths : History Paths Coverage -> Paths
}.

Arguments DEBUG_defined {Paths Coverage} _.
Arguments DATE {Paths Coverage} _.
Arguments TIME {Paths Coverage} _.
Arguments getopt {Paths Coverage} _ argv optString.
Arguments getopt_permutes {Paths Coverage} _ argv optString.
Arguments atoi {Paths Coverage} _ s.
Arguments splitString {Paths Coverage} _ s delim.
Arguments SequenceContainer_loadFromFile {Paths Coverage} _ h c path.
Arguments GraphProcessor_getEdgesPaths {Paths Coverage} _ h.
Arguments MultiplicityInferer_getMeanCoverage {Paths Coverage} _ h.
Arguments ContigExtender_getUnbranchingPaths {Paths Coverage} _ h.

(** ** Runs: calls, exceptions and process exit *)

(** A statement either completes with a value, raises
    [SequenceContainer::ParseException], or ends the process ([exit]). *)
Inductive Outcome (A : Type) :=
| Normal (a : A)
| Throws (what : string)
| Exits (status : Z).

Arguments Normal {A} a.
Arguments Throws {A} what.
Arguments Exits {A} status.

(** A computation reads the calls made before it started and yields its
    outcome with the calls it made itself, oldest first. *)
Definition Run (Paths Coverage A : Type) :=
  History Paths Coverage -> Outcome A * list (Call Paths Coverage).

Module RunMonad.
Section Ops.
Context {Paths Coverage : Type}.
Local Abbreviation Run := (Run Paths Coverage).

Definition ret {A} (a : A) : Run A := fun _ => (Normal a, []).

Definition bind {A B} (m : Run A) (k : A -> Run B) : Run B := fun h =>
  match m h with
  | (Normal a, t1) =>
      match k a (h ++ t1) with
      | (r, t2) => (r, t1 ++ t2)
      end
  | (Throws w, t1) => (Throws w, t1)
  | (Exits s, t1) => (Exits s, t1)
  end.

(** A call that returns nothing the driver looks at. *)
Definition call (c : Call Paths Coverage) : Run unit :=
  fun _ => (Normal tt, [c]).

(** A call whose result the driver uses; the result is what the
    collaborator answers after the calls made so far. *)
Definition query {V} (c : Call Paths Coverage)
    (answer : History Paths Coverage -> V) : Run V :=
  fun h => (Normal (answer h), [c]).

(** [exit(status)]. *)
Definition exit {A} (status : Z) : Run A := fun _ => (Exits status, []).

(** [try { body } catch (ParseException& e) { handler(e.what()) }]. *)
Definition try_catch {A} (body : Run A) (handler : string -> Run A) : Run A :=
  fun h =>
    match body h with
    | (Throws w, t1) =>
        match handler w (h ++ t1) with
        | (r, t2) => (r, t1 ++ t2)
        end
    | other => other
    end.
End Ops.
End RunMonad.
Import RunMonad.

Declare Scope run_scope.
Delimit Scope run_scope with run.

Notation "x <- m ;; k" := (bind m (fun x => k))
  (at level 100, m at next level, right associativity) : run_scope.
Notation "m ;; k" := (bind m (fun _ => k))
  (at level 100, right associativity) : run_scope.

(** ** The driver *)

(** The variables [parseArgs] fills in (its reference parameters, which
    are [main]'s locals of the same names; [debug] is [main]'s
    [debugging]). *)
Record Options := {
  readsFasta : string;
  outFolder : string;
  logFile : string;
  inAssembly : string;
  kmerSize : Z;
  minOverlap : Z;
  debug : bool;
  numThreads : Z;
  configPath : string;
  graphContinue : bool
}.

Definition set_numThreads (v : Z) (o : Options) : Options :=
  {| readsFasta := readsFasta o; outFolder := outFolder o;
     logFile := logFile o; inAssembly := inAssembly o;
     kmerSize := kmerSize o; minOverlap := minOverlap o; debug := debug o;
     numThreads := v;
     configPath := configPath o; graphContinue := graphContinue o |}.

Definition set_minOverlap (v : Z) (o : Options) : Options :=
  {| readsFasta := readsFasta o; outFolder := outFolder o;
     logFile := logFile o; inAssembly := inAssembly o;
     kmerSize := kmerSize o; minOverlap := v; debug := debug o;
     numThreads := numThreads o;
     configPath := configPath o; graphContinue := graphContinue o |}.

Definition set_kmerSize (v : Z) (o : Options) : Options :=
  {| readsFasta := readsFasta o; outFolder := outFolder o;
     logFile := logFile o; inAssembly := inAssembly o;
     kmerSize := v; minOverlap := minOverlap o; debug := debug o;
     numThreads := numThreads o;
     configPath := configPath o; graphContinue := graphContinue o |}.

Definition set_logFile (v : string) (o : Options) : Options :=
  {| readsFasta := readsFasta o; outFolder := outFolder o;
     logFile := v; inAssembly := inAssembly o;
     kmerSize := kmerSize o; minOverlap := minOverlap o; debug := debug o;
     numThreads := numThreads o;
     configPath := configPath o; graphContinue := graphContinue o |}.

Definition set_debug (v : bool) (o : Options) : Options :=
  {| readsFasta := readsFasta o; outFolder := outFolder o;
     logFile := logFile o; inAssembly := inAssembly o;
     kmerSize := kmerSize o; minOverlap := minOverlap o; debug := v;
     numThreads := numThreads o;
     configPath := configPath o; graphContinue := graphContinue o |}.

Definition set_graphContinue (v : bool) (o : Options) : Options :=
  {| readsFasta := readsFasta o; outFolder := outFolder o;
     logFile := logFile o; inAssembly := inAssembly o;
     kmerSize := kmerSize o; minOverlap := minOverlap o; debug := debug o;
     numThreads := numThreads o;
     configPath := configPath o; graphContinue := v |}.

(** Lines 97-100: the four positional arguments. *)
Definition set_positional (asm reads out config : string) (o : Options)
    : Options :=
  {| readsFasta := reads; outFolder := out;
     logFile := logFile o; inAssembly := asm;
     kmerSize := kmerSize o; minOverlap := minOverlap o; debug := debug o;
     numThreads := numThreads o;
     configPath := config; graphContinue := graphContinue o |}.

(** [numThreads] is a [size_t]: the [int] that [atoi] returns is converted
    modulo 2^64. *)
Definition size_t_of_int (v : Z) : Z := (v mod 2 ^ 64)%Z.

(** [const char optString[] = "l:t:k:v:hdg"], line 62. *)
Definition optString : string := "l:t:k:v:hdg".

Section Driver.
Context {Paths Coverage : Type} (env : Externals Paths Coverage).
Local Abbreviation Call := (Call Paths Coverage).
Local Abbreviation History := (History Paths Coverage).
Local Abbreviation Run := (Run Paths Coverage).
Local Open Scope run_scope.

(** The [while ((opt = getopt(...)) != -1) switch (opt)] loop, lines
    64-90, over the values [getopt] still has to return.  An option
    character without a [case] (['?'] for an unknown option or a missing
    argument) falls out of the [switch] and the loop goes on. *)
Fixpoint getopt_loop (argv : list string) (pending : list (ascii * string))
    (o : Options) : Run Options :=
  match pending with
  | [] => ret o
  | (opt, optarg) :: pending' =>
      match opt with
      | "t"%char =>
          getopt_loop argv pending'
            (set_numThreads (size_t_of_int (atoi env optarg)) o)
      | "v"%char =>
          getopt_loop argv pending' (set_minOverlap (atoi env optarg) o)
      | "k"%char =>
          getopt_loop argv pending' (set_kmerSize (atoi env optarg) o)
      | "l"%char => getopt_loop argv pending' (set_logFile optarg o)
      | "d"%char => getopt_loop argv pending' (set_debug true o)
      | "g"%char => getopt_loop argv pending' (set_graphContinue true o)
      | "h"%char => call (printUsage (argv !! 0%nat)) ;; exit 0
      | _ => getopt_loop argv pending' o
      end
  end.

(** [parseArgs], lines 25-103.  The result pairs the returned [bool]
    with the variables as the function leaves them. *)
Definition parseArgs (argv : list string) (o : Options)
    : Run (bool * Options) :=
  let o := set_numThreads 1 o in
  let o := set_debug false o in
  let o := set_graphContinue false o in
  let o := set_minOverlap 5000 o in
  let o := set_kmerSize 15 o in
  let scan := getopt env argv optString in
  o <- getopt_loop argv (returned scan) o ;;
  if decide (Z.of_nat (length argv) - Z.of_nat (optind scan) ≠ 4)%Z then
    call (printUsage (argv !! 0%nat)) ;;
    ret (false, o)
  else
    (* argv[optind + i]; the read is within the vector, see
       [positional_in_range] *)
    let arg (i : nat) :=
      default "" (argv_final scan !! (optind scan + i)%nat) in
    ret (true,
         set_positional (arg 0%nat) (arg 1%nat) (arg 2%nat) (arg 3%nat) o).

(** [seqX.loadFromFile(path)]. *)
Definition load (c : Container) (path : string) : Run unit := fun h =>
  match SequenceContainer_loadFromFile env h c path with
  | Loaded => (Normal tt, [loadFromFile c path Loaded])
  | ParseException what =>
      (Throws what, [loadFromFile c path (ParseException what)])
  end.

(** [for (auto& readsFile : readsList) seqReads.loadFromFile(readsFile)],
    lines 188-191. *)
Fixpoint load_reads (readsList : list string) : Run unit :=
  match readsList with
  | [] => ret tt
  | readsFile :: rest => load seqReads readsFile ;; load_reads rest
  end.

(** Lines 199-248: everything after the sequences are loaded. *)
Definition assemble (o : Options) : Run Z :=
  call (RepeatGraph_ctor seqAssembly) ;;
  call (GraphProcessor_ctor seqAssembly seqReads) ;;
  call (ReadAligner_ctor seqAssembly seqReads) ;;
  call (OutputGenerator_ctor seqAssembly seqReads) ;;

  call (Logger_info "Building repeat graph") ;;
  call rg_build ;;
  p <- query proc_getEdgesPaths (GraphProcessor_getEdgesPaths env) ;;
  call (outGen_outputDot p (outFolder o +:+ "/graph_raw.dot")) ;;
  call proc_simplify ;;

  call (Logger_info "Aligning reads to the graph") ;;
  call aligner_alignReads ;;

  call (MultiplicityInferer_ctor seqAssembly seqReads) ;;
  call multInf_estimateCoverage ;;
  call multInf_removeUnsupportedEdges ;;
  call multInf_removeUnsupportedConnections ;;
  call multInf_separateHaplotypes ;;

  call (Logger_info "Resolving repeats") ;;
  call (RepeatResolver_ctor seqAssembly seqReads) ;;
  call resolver_findRepeats ;;

  p <- query proc_getEdgesPaths (GraphProcessor_getEdgesPaths env) ;;
  call (outGen_outputDot p (outFolder o +:+ "/graph_before_rr.dot")) ;;
  p <- query proc_getEdgesPaths (GraphProcessor_getEdgesPaths env) ;;
  call (outGen_outputGfa p (outFolder o +:+ "/graph_before_rr.gfa")) ;;
  p <- query proc_getEdgesPaths (GraphProcessor_getEdgesPaths env) ;;
  call (outGen_outputFasta p (outFolder o +:+ "/graph_before_rr.fasta")) ;;

  call resolver_resolveRepeats ;;
  call resolver_fixLongEdges ;;
  p <- query proc_getEdgesPaths (GraphProcessor_getEdgesPaths env) ;;
  call (outGen_outputDot p (outFolder o +:+ "/graph_after_rr.dot")) ;;

  call (Logger_info "Generating contigs") ;;

  cov <- query multInf_getMeanCoverage
           (MultiplicityInferer_getMeanCoverage env) ;;
  call (ContigExtender_ctor seqAssembly seqReads cov) ;;
  call extender_generateUnbranchingPaths ;;
  call (extender_generateContigs (graphContinue o)) ;;
  call (extender_outputContigs (outFolder o +:+ "/graph_paths.fasta")) ;;
  call (extender_outputStatsTable (outFolder o +:+ "/contigs_stats.txt")) ;;
  call (extender_outputScaffoldConnections
          (outFolder o +:+ "/scaffolds_links.txt")) ;;

  p <- query extender_getUnbranchingPaths
         (ContigExtender_getUnbranchingPaths env) ;;
  call (outGen_dumpRepeats p (outFolder o +:+ "/repeats_dump.txt")) ;;
  p <- query extender_getUnbranchingPaths
         (ContigExtender_getUnbranchingPaths env) ;;
  call (outGen_outputDot p (outFolder o +:+ "/graph_final.dot")) ;;
  p <- query extender_getUnbranchingPaths
         (ContigExtender_getUnbranchingPaths env) ;;
  call (outGen_outputFasta p (outFolder o +:+ "/graph_final.fasta")) ;;
  p <- query extender_getUnbranchingPaths
         (ContigExtender_getUnbranchingPaths env) ;;
  call (outGen_outputGfa p (outFolder o +:+ "/graph_final.gfa")) ;;
  ret 0%Z.

(** [main]'s locals as declared on lines 158-167. *)
Definition main_locals : Options :=
  {| readsFasta := ""; outFolder := ""; logFile := ""; inAssembly := "";
     kmerSize := 15; minOverlap := 5000; debug := false; numThreads := 1;
     configPath := ""; graphContinue := false |}.

(** Lines 171-197: configuration, logging set-up and sequence loading.
    The result is [Some status] when [main] returns from inside the
    [catch] block and [None] when control reaches line 199. *)
Definition configure_and_load (o : Options) : Run (option Z) :=
  call (Parameters_set_minimumOverlap (minOverlap o)) ;;
  call (Parameters_set_kmerSize (kmerSize o)) ;;
  call (Parameters_set_numThreads (numThreads o)) ;;

  call (Logger_setDebugging (debug o)) ;;
  (if decide (logFile o = "") then ret tt
   else call (Logger_setOutputFile (logFile o))) ;;
  call (Logger_debug ("Build date: " +:+ DATE env +:+ " " +:+ TIME env)) ;;
  call (sync_with_stdio false) ;;
  call (Config_load (configPath o)) ;;

  call (Logger_info "Reading sequences") ;;
  let readsList := splitString env (readsFasta o) ","%char in
  try_catch
    (load seqAssembly (inAssembly o) ;;
     load_reads readsList ;;
     ret None)
    (fun what =>
       call (Logger_error what) ;;
       ret (Some 1%Z)).

(** [main], lines 151-249.  A normal outcome is the value [main]
    returns, which is the exit status of the process. *)
Definition main (argv : list string) : Run Z :=
  (if DEBUG_defined env then ret tt
   else call signal_SIGSEGV ;; call set_terminate) ;;
  r <- parseArgs argv main_locals ;;
  if negb (fst r) then ret 1%Z
  else
    let o := snd r in
    early <- configure_and_load o ;;
    match early with
    | Some status => ret status
    | None => assemble o
    end.

(** A whole process: [main] started with no call made yet. *)
Definition trace (argv : list string) : list Call := snd (main argv []).

(** The exit status of the process, when it ends by [return] from
    [main] or by [exit]. *)
Definition exit_status (argv : list string) : option Z :=
  match fst (main argv []) with
  | Normal status => Some status
  | Exits status => Some status
  | Throws _ => None
  end.

End Driver.

(** ** A reference instance of the outside world

    The theorems below hold for every [Externals].  To run the driver on
    concrete command lines, this module fixes one: a [getopt] that scans
    as POSIX describes (options first, scanning stops at the first
    non-option, no permutation), a decimal [atoi], a [splitString] that
    cuts at every delimiter the way repeated [std::getline] does, and a
    file system in which one file is malformed. *)
Module Reference.

(** Looks [c] up in an option string: [None] when [c] is not an option
    character, otherwise whether it takes an argument. *)
Fixpoint find_opt (c : ascii) (opts : string) : option bool :=
  match opts with
  | EmptyString => None
  | String x opts' =>
      if Ascii.eqb x c then
        Some match opts' with String ":"%char _ => true | _ => false end
      else find_opt c opts'
  end.

(** Scans the characters of one argument after its leading ['-'].
    [next] is the following argument, if any.  The result lists what
    [getopt] returns for this argument and tells whether [next] was
    consumed as an option argument. *)
Fixpoint scan_cluster (opts cluster : string) (next : option string)
    : list (ascii * string) * bool :=
  match cluster with
  | EmptyString => ([], false)
  | String c rest =>
      match (if Ascii.eqb c ":"%char then None else find_opt c opts) with
      | None =>
          let r := scan_cluster opts rest next in
          (("?"%char, "") :: fst r, snd r)
      | Some false =>
          let r := scan_cluster opts rest next in
          ((c, "") :: fst r, snd r)
      | Some true =>
          match rest with
          | EmptyString =>
              match next with
              | Some a => ([(c, a)], true)
              | None => ([("?"%char, "")], false)
              end
          | _ => ([(c, rest)], false)
          end
      end
  end.

(** Scans the arguments from index [ind] on. *)
Fixpoint posix_scan (opts : string) (args : list string) (ind : nat)
    : list (ascii * string) * nat :=
  match args with
  | [] => ([], ind)
  | a :: rest =>
      match a with
      | String "-"%char EmptyString => ([], ind)
      | String "-"%char (String "-"%char EmptyString) => ([], S ind)
      | String "-"%char cluster =>
          match scan_cluster opts cluster (head rest) with
          | (r, true) =>
              match rest with
              | _ :: rest' =>
                  let r' := posix_scan opts rest' (S (S ind)) in
                  (r ++ fst r', snd r')
              | [] => (r, S ind)
              end
          | (r, false) =>
              let r' := posix_scan opts rest (S ind) in
              (r ++ fst r', snd r')
          end
      | _ => ([], ind)
      end
  end.

Definition posix_getopt (argv : list string) (opts : string) : GetoptRun :=
  let r := posix_scan opts (tail argv) 1 in
  {| returned := fst r; optind := snd r; argv_final := argv |}.

Definition digit_of (c : ascii) : option Z :=
  let n := nat_of_ascii c in
  if (48 <=? n)%nat && (n <=? 57)%nat then Some (Z.of_nat (n - 48)) else None.

Fixpoint digits (s : string) (acc : Z) : Z :=
  match s with
  | EmptyString => acc
  | String c s' =>
      match digit_of c with
      | Some d => digits s' (10 * acc + d)%Z
      | None => acc
      end
  end.

Definition decimal_atoi (s : string) : Z :=
  match s with
  | String "-"%char s' => (- digits s' 0)%Z
  | String "+"%char s' => digits s' 0
  | _ => digits s 0
  end.

(** [item] is the piece being read, in reverse. *)
Fixpoint split_from (delim : ascii) (s : string) (item : string)
    : list string :=
  match s with
  | EmptyString =>
      match item with
      | EmptyString => []
      | _ => [String.rev item]
      end
  | String c s' =>
      if Ascii.eqb c delim then String.rev item :: split_from delim s' ""
      else split_from delim s' (String c item)
  end.

Definition getline_split (s : string) (delim : ascii) : list string :=
  split_from delim s "".

Definition one_bad_file (h : History nat nat) (c : Container)
    (path : string) : LoadResult :=
  if decide (path = "broken.fasta") then ParseException "parse error"
  else Loaded.

(** Paths and coverage are stood for by the number of calls made when
    they were asked for. *)
Definition env : Externals nat nat :=
  {| DEBUG_defined := false;
     DATE := "Jan  1 2017";
     TIME := "00:00:00";
     getopt := posix_getopt;
     getopt_permutes := fun argv _ => Permutation_refl argv;
     atoi := decimal_atoi;
     splitString := getline_split;
     SequenceContainer_loadFromFile := one_bad_file;
     GraphProcessor_getEdgesPaths := fun h => length h;
     MultiplicityInferer_getMeanCoverage := fun h => length h;
     ContigExtender_getUnbranchingPaths := fun h => length h |}.

(** Command lines used as examples. *)
Definition argv_plain : list string :=
  ["repeat"; "asm.fasta"; "r1.fasta,r2.fasta"; "out"; "cfg"].
Definition argv_options : list string :=
  ["repeat"; "-t"; "8"; "-k17"; "-dv"; "3000"; "asm.fasta"; "r1.fasta";
   "out"; "cfg"].
Definition argv_help : list string := ["repeat"; "-h"].
Definition argv_short : list string := ["repeat"; "asm.fasta"].
Definition argv_bad_reads : list string :=
  ["repeat"; "asm.fasta"; "r1.fasta,broken.fasta,r3.fasta"; "out"; "cfg"].

End Reference.

(** ** Reading a trace *)

(** The pipeline phases of the specification. *)
Inductive Phase := Build | Simplify | Align | Infer | Resolve | Extend.

Definition phase_rank (p : Phase) : nat :=
  match p with
  | Build => 0 | Simplify => 1 | Align => 2
  | Infer => 3 | Resolve => 4 | Extend => 5
  end.

Definition phase_le (p q : Phase) : Prop := phase_rank p <= phase_rank q.

Section Reading.
Context {Paths Coverage : Type}.
Local Abbreviation Call := (Call Paths Coverage).

(** The phase a call belongs to: the graph build, the simplification,
    the read alignment, the passes of the multiplicity inferer, the
    passes of the resolver and the contig extender's generation steps.
    Constructors, accessors, logging and output writers belong to no
    phase. *)
Definition phase_of (c : Call) : option Phase :=
  match c with
  | rg_build => Some Build
  | proc_simplify => Some Simplify
  | aligner_alignReads => Some Align
  | multInf_estimateCoverage
  | multInf_removeUnsupportedEdges
  | multInf_removeUnsupportedConnections
  | multInf_separateHaplotypes => Some Infer
  | resolver_findRepeats
  | resolver_resolveRepeats
  | resolver_fixLongEdges => Some Resolve
  | extender_generateUnbranchingPaths
  | extender_generateContigs _ => Some Extend
  | _ => None
  end.

Definition phases (t : list Call) : list Phase := omap phase_of t.

(** Construction of a pipeline component. *)
Definition is_ctor (c : Call) : bool :=
  match c with
  | RepeatGraph_ctor _ | GraphProcessor_ctor _ _ | ReadAligner_ctor _ _
  | OutputGenerator_ctor _ _ | MultiplicityInferer_ctor _ _
  | RepeatResolver_ctor _ _ | ContigExtender_ctor _ _ _ => true
  | _ => false
  end.

(** A call that writes one of the output files of the run. *)
Definition writes_output (c : Call) : bool :=
  match c with
  | outGen_outputDot _ _ | outGen_outputGfa _ _ | outGen_outputFasta _ _
  | outGen_dumpRepeats _ _
  | extender_outputContigs _ | extender_outputStatsTable _
  | extender_outputScaffoldConnections _ => true
  | _ => false
  end.

Definition is_load (c : Call) : bool :=
  match c with
  | loadFromFile _ _ _ => true
  | _ => false
  end.

(** Installing the handlers of lines 154-155: the only calls [main]
    makes before [parseArgs]. *)
Definition is_setup (c : Call) : bool :=
  match c with
  | signal_SIGSEGV | set_terminate => true
  | _ => false
  end.

(** What the driver does before line 199: process set-up, usage,
    configuration, logging, loading.  No graph component is touched. *)
Definition is_preamble (c : Call) : bool :=
  match c with
  | signal_SIGSEGV | set_terminate | printUsage _
  | Parameters_set_minimumOverlap _ | Parameters_set_kmerSize _
  | Parameters_set_numThreads _
  | Logger_setDebugging _ | Logger_setOutputFile _ | Logger_debug _
  | Logger_info _ | Logger_error _ | sync_with_stdio _ | Config_load _
  | loadFromFile _ _ _ => true
  | _ => false
  end.

Definition preamble (t : list Call) : Prop :=
  Forall (fun c => is_preamble c = true) t.

(** The files handed to [loadFromFile] on container [c], in call
    order. *)
Definition files_loaded (c : Container) (t : list Call) : list string :=
  omap (fun call =>
          match call with
          | loadFromFile c' path _ =>
              match c, c' with
              | seqAssembly, seqAssembly | seqReads, seqReads => Some path
              | _, _ => None
              end
          | _ => None
          end) t.

(** A [loadFromFile] that raised [ParseException]. *)
Definition load_raised (c : Call) : bool :=
  match c with
  | loadFromFile _ _ (ParseException _) => true
  | _ => false
  end.

(** A call that belongs to some phase. *)
Definition in_phase (c : Call) : bool :=
  match phase_of c with
  | Some _ => true
  | None => false
  end.

(** One of the passes of the multiplicity inferer. *)
Definition is_infer_pass (c : Call) : bool :=
  match phase_of c with
  | Some Infer => true
  | _ => false
  end.

(** A call on the repeat resolver: its construction or one of its
    passes. *)
Definition on_resolver (c : Call) : bool :=
  match c with
  | RepeatResolver_ctor _ _ | resolver_findRepeats
  | resolver_resolveRepeats | resolver_fixLongEdges => true
  | _ => false
  end.

(** Nothing of the pipeline: no component constructed, no phase
    entered, no output file written. *)
Definition outside_pipeline (c : Call) : Prop :=
  is_ctor c = false /\ phase_of c = None /\ writes_output c = false.

(** Every occurrence of a call satisfying [later] in [t] has a call
    satisfying [earlier] somewhere before it. *)
Definition always_after (earlier later : Call -> Prop) (t : list Call)
    : Prop :=
  forall pre c post,
    t = pre ++ c :: post -> later c -> exists c0, c0 ∈ pre /\ earlier c0.

(** The same as a check that runs along the trace; [seen] tells whether
    an [earlier] call has been met. *)
Fixpoint after_check (earlier later : Call -> bool) (seen : bool)
    (t : list Call) : bool :=
  match t with
  | [] => true
  | c :: t' =>
      (if later c then seen else true)
      && after_check earlier later (seen || earlier c) t'
  end.

End Reading.

(** ** The option scan as a function *)

(** One turn of the [switch] for an option other than [-h]. *)
Definition option_step {Paths Coverage} (env : Externals Paths Coverage)
    (opt : ascii) (optarg : string) (o : Options) : Options :=
  match opt with
  | "t"%char => set_numThreads (size_t_of_int (atoi env optarg)) o
  | "v"%char => set_minOverlap (atoi env optarg) o
  | "k"%char => set_kmerSize (atoi env optarg) o
  | "l"%char => set_logFile optarg o
  | "d"%char => set_debug true o
  | "g"%char => set_graphContinue true o
  | _ => o
  end.

Fixpoint scan_options {Paths Coverage} (env : Externals Paths Coverage)
    (pending : list (ascii * string)) (o : Options) : Options :=
  match pending with
  | [] => o
  | (opt, optarg) :: pending' =>
      scan_options env pending' (option_step env opt optarg o)
  end.

(** The option characters [getopt] returns for a command line. *)
Definition options_given {Paths Coverage} (env : Externals Paths Coverage)
    (argv : list string) : list ascii :=
  (returned (getopt env argv optString)).*1.

(** [argc - optind]. *)
Definition remaining {Paths Coverage} (env : Externals Paths Coverage)
    (argv : list string) : Z :=
  (Z.of_nat (length argv) - Z.of_nat (optind (getopt env argv optString)))%Z.

(** The variables after the option loop of [parseArgs], when no [-h]
    ended it. *)
Definition scanned {Paths Coverage} (env : Externals Paths Coverage)
    (argv : list string) (o : Options) : Options :=
  scan_options env (returned (getopt env argv optString))
    (set_kmerSize 15 (set_minOverlap 5000 (set_graphContinue false
       (set_debug false (set_numThreads 1 o))))).

(** The variables as [parseArgs] leaves them when it returns [true]. *)
Definition parsed {Paths Coverage} (env : Externals Paths Coverage)
    (argv : list string) (o : Options) : Options :=
  let scan := getopt env argv optString in
  let arg (i : nat) :=
    default "" (argv_final scan !! (optind scan + i)%nat) in
  set_positional (arg 0%nat) (arg 1%nat) (arg 2%nat) (arg 3%nat)
    (scanned env argv o).

(** ** The shapes a run can take *)

(** What the accessors answered during the assembly, one field per call
    site: [proc.getEdgesPaths()] on lines 206, 222, 223, 224 and 228,
    [multInf.getMeanCoverage()] on line 233 and
    [extender.getUnbranchingPaths()] on lines 240, 242, 244 and 246. *)
Record Answers (Paths Coverage : Type) := {
  raw_paths : Paths;
  before_rr_dot : Paths;
  before_rr_gfa : Paths;
  before_rr_fasta : Paths;
  after_rr_dot : Paths;
  mean_coverage : Coverage;
  final_dump : Paths;
  final_dot : Paths;
  final_fasta : Paths;
  final_gfa : Paths
}.

Arguments raw_paths {Paths Coverage} _.
Arguments before_rr_dot {Paths Coverage} _.
Arguments before_rr_gfa {Paths Coverage} _.
Arguments before_rr_fasta {Paths Coverage} _.
Arguments after_rr_dot {Paths Coverage} _.
Arguments mean_coverage {Paths Coverage} _.
Arguments final_dump {Paths Coverage} _.
Arguments final_dot {Paths Coverage} _.
Arguments final_fasta {Paths Coverage} _.
Arguments final_gfa {Paths Coverage} _.

Section Shapes.
Context {Paths Coverage : Type} (env : Externals Paths Coverage).
Local Abbreviation Call := (Call Paths Coverage).
Local Abbreviation Answers := (Answers Paths Coverage).

(** The calls of lines 154-155. *)
Definition setup_calls : list Call :=
  if DEBUG_defined env then [] else [signal_SIGSEGV; set_terminate].

(** The calls of lines 171-181. *)
Definition config_calls (o : Options) : list Call :=
  [Parameters_set_minimumOverlap (minOverlap o);
   Parameters_set_kmerSize (kmerSize o);
   Parameters_set_numThreads (numThreads o);
   Logger_setDebugging (debug o)]
  ++ (if decide (logFile o = "") then []
      else [Logger_setOutputFile (logFile o)])
  ++ [Logger_debug ("Build date: " +:+ DATE env +:+ " " +:+ TIME env);
      sync_with_stdio false;
      Config_load (configPath o);
      Logger_info "Reading sequences"].

(** Successful loads of the given files into container [c]. *)
Definition loaded_calls (c : Container) (files : list string) : list Call :=
  map (fun file => loadFromFile c file Loaded) files.

(** The loads of a run in which every file is read. *)
Definition all_loads (o : Options) : list Call :=
  loadFromFile seqAssembly (inAssembly o) Loaded
  :: loaded_calls seqReads (splitString env (readsFasta o) ","%char).

(** The loads of a run in which a file is malformed: either the
    assembly is, or some reads file is after the assembly and the reads
    files listed before it were read. *)
Inductive load_failure (o : Options) : list Call -> string -> Prop :=
| assembly_fails what :
    load_failure o
      [loadFromFile seqAssembly (inAssembly o) (ParseException what)] what
| reads_fail before file after what :
    splitString env (readsFasta o) ","%char = before ++ file :: after ->
    load_failure o
      (loadFromFile seqAssembly (inAssembly o) Loaded
       :: loaded_calls seqReads before
       ++ [loadFromFile seqReads file (ParseException what)]) what.

(** The calls of lines 199-248, given what the accessors answered. *)
Definition assemble_calls (o : Options) (a : Answers) : list Call :=
  [RepeatGraph_ctor seqAssembly;
   GraphProcessor_ctor seqAssembly seqReads;
   ReadAligner_ctor seqAssembly seqReads;
   OutputGenerator_ctor seqAssembly seqReads;
   Logger_info "Building repeat graph";
   rg_build;
   proc_getEdgesPaths;
   outGen_outputDot (raw_paths a) (outFolder o +:+ "/graph_raw.dot");
   proc_simplify;
   Logger_info "Aligning reads to the graph";
   aligner_alignReads;
   MultiplicityInferer_ctor seqAssembly seqReads;
   multInf_estimateCoverage;
   multInf_removeUnsupportedEdges;
   multInf_removeUnsupportedConnections;
   multInf_separateHaplotypes;
   Logger_info "Resolving repeats";
   RepeatResolver_ctor seqAssembly seqReads;
   resolver_findRepeats;
   proc_getEdgesPaths;
   outGen_outputDot (before_rr_dot a)
     (outFolder o +:+ "/graph_before_rr.dot");
   proc_getEdgesPaths;
   outGen_outputGfa (before_rr_gfa a)
     (outFolder o +:+ "/graph_before_rr.gfa");
   proc_getEdgesPaths;
   outGen_outputFasta (before_rr_fasta a)
     (outFolder o +:+ "/graph_before_rr.fasta");
   resolver_resolveRepeats;
   resolver_fixLongEdges;
   proc_getEdgesPaths;
   outGen_outputDot (after_rr_dot a) (outFolder o +:+ "/graph_after_rr.dot");
   Logger_info "Generating contigs";
   multInf_getMeanCoverage;
   ContigExtender_ctor seqAssembly seqReads (mean_coverage a);
   extender_generateUnbranchingPaths;
   extender_generateContigs (graphContinue o);
   extender_outputContigs (outFolder o +:+ "/graph_paths.fasta");
   extender_outputStatsTable (outFolder o +:+ "/contigs_stats.txt");
   extender_outputScaffoldConnections
     (outFolder o +:+ "/scaffolds_links.txt");
   extender_getUnbranchingPaths;
   outGen_dumpRepeats (final_dump a) (outFolder o +:+ "/repeats_dump.txt");
   extender_getUnbranchingPaths;
   outGen_outputDot (final_dot a) (outFolder o +:+ "/graph_final.dot");
   extender_getUnbranchingPaths;
   outGen_outputFasta (final_fasta a)
     (outFolder o +:+ "/graph_final.fasta");
   extender_getUnbranchingPaths;
   outGen_outputGfa (final_gfa a) (outFolder o +:+ "/graph_final.gfa")].

(** Each answer is what the collaborator returns after the calls made
    before the accessor was called: the calls before line 199 and the
    first [n] calls of the assembly. *)
Definition answers_from (before : list Call) (o : Options) (a : Answers)
    : Prop :=
  let upto (n : nat) := before ++ take n (assemble_calls o a) in
  raw_paths a = GraphProcessor_getEdgesPaths env (upto 6%nat)
  /\ before_rr_dot a = GraphProcessor_getEdgesPaths env (upto 19%nat)
  /\ before_rr_gfa a = GraphProcessor_getEdgesPaths env (upto 21%nat)
  /\ before_rr_fasta a = GraphProcessor_getEdgesPaths env (upto 23%nat)
  /\ after_rr_dot a = GraphProcessor_getEdgesPaths env (upto 27%nat)
  /\ mean_coverage a = MultiplicityInferer_getMeanCoverage env (upto 30%nat)
  /\ final_dump a = ContigExtender_getUnbranchingPaths env (upto 37%nat)
  /\ final_dot a = ContigExtender_getUnbranchingPaths env (upto 39%nat)
  /\ final_fasta a = ContigExtender_getUnbranchingPaths env (upto 41%nat)
  /\ final_gfa a = ContigExtender_getUnbranchingPaths env (upto 43%nat).

(** The four ways a process ends, with the calls it made. *)
Inductive main_run (argv : list string)
    : Outcome Z * list Call -> Prop :=
| run_help :
    "h"%char ∈ options_given env argv ->
    main_run argv (Exits 0, setup_calls ++ [printUsage (argv !! 0%nat)])
| run_usage :
    "h"%char ∉ options_given env argv ->
    remaining env argv ≠ 4%Z ->
    main_run argv (Normal 1%Z, setup_calls ++ [printUsage (argv !! 0%nat)])
| run_input_error loads what :
    "h"%char ∉ options_given env argv ->
    remaining env argv = 4%Z ->
    load_failure (parsed env argv main_locals) loads what ->
    main_run argv
      (Normal 1%Z,
       setup_calls ++ config_calls (parsed env argv main_locals)
       ++ loads ++ [Logger_error what])
| run_assembly before :
    "h"%char ∉ options_given env argv ->
    remaining env argv = 4%Z ->
    before = setup_calls ++ config_calls (parsed env argv main_locals)
             ++ all_loads (parsed env argv main_locals) ->
    main_run argv
      (Normal 0%Z,
       before ++ snd (assemble env (parsed env argv main_locals) before)).

(** The calls of lines 234-247, given the paths handed to the four
    final writers. *)
Definition contig_generation_calls (o : Options) (u1 u2 u3 u4 : Paths)
    : list Call :=
  [extender_generateUnbranchingPaths;
   extender_generateContigs (graphContinue o);
   extender_outputContigs (outFolder o +:+ "/graph_paths.fasta");
   extender_outputStatsTable (outFolder o +:+ "/contigs_stats.txt");
   extender_outputScaffoldConnections
     (outFolder o +:+ "/scaffolds_links.txt");
   extender_getUnbranchingPaths;
   outGen_dumpRepeats u1 (outFolder o +:+ "/repeats_dump.txt");
   extender_getUnbranchingPaths;
   outGen_outputDot u2 (outFolder o +:+ "/graph_final.dot");
   extender_getUnbranchingPaths;
   outGen_outputFasta u3 (outFolder o +:+ "/graph_final.fasta");
   extender_getUnbranchingPaths;
   outGen_outputGfa u4 (outFolder o +:+ "/graph_final.gfa")].

(** Writing an output file and reading the unbranching paths leave the
    extender's unbranching paths as they are. *)
Definition paths_stable : Prop :=
  forall h c,
    writes_output c = true \/ c = extender_getUnbranchingPaths ->
    ContigExtender_getUnbranchingPaths env (h ++ [c]) =
    ContigExtender_getUnbranchingPaths env h.

(** The command line is turned down: [parseArgs] prints the usage
    message and returns [false], and [main] returns 1 having done
    nothing else.  The whole run is the installation of the handlers
    followed by the one call of [printUsage]: nothing is assigned to
    [Parameters], the logger is not touched, no configuration and no
    sequence file is read, no component is constructed and nothing is
    written. *)
Definition usage_rejected (argv : list string) : Prop :=
  (forall h, exists o,
      parseArgs env argv main_locals h =
      (Normal (false, o), [printUsage (argv !! 0%nat)]))
  /\ exit_status env argv = Some 1%Z
  /\ trace env argv = setup_calls ++ [printUsage (argv !! 0%nat)]
  /\ Forall (fun c => is_setup c = true \/ c = printUsage (argv !! 0%nat))
       (trace env argv)
  /\ Forall (fun c => is_load c = false /\ is_ctor c = false)
       (trace env argv).

End Shapes.

(** ** The handlers of lines 111-149 *)


Section Handlers.
Context {Paths Coverage : Type}.
Local Abbreviation Run := (Run Paths Coverage).
Local Open Scope run_scope.

(** [backtrace(stackArray, 10)] then [backtrace_symbols(stackArray, size)]:
    the symbols of the innermost frames of the stack, ten at most. *)
Definition backtrace_symbols (stack : list string) : list string :=
  take 10 stack.

(** [for (i = 0; i < size; ++i)
      Logger::get().error() << "\t" << backtrace[i]]. *)
Fixpoint log_frames (symbols : list string) : Run unit :=
  match symbols with
  | [] => ret tt
  | symbol :: rest =>
      call (Logger_error (String "009"%char symbol)) ;; log_frames rest
  end.

(** [segfaultHandler], lines 111-122, run on the given stack. *)
Definition segfaultHandler {A} (stack : list string) : Run A :=
  let symbols := backtrace_symbols stack in
  call (Logger_error "Segmentation fault! Backtrace:") ;;
  log_frames symbols ;;
  exit 1.



End Handlers.

(** ** More ways to read a run *)

(** The [optarg] of the last occurrence of option [c] among the values
    [getopt] returned. *)
Fixpoint last_arg (c : ascii) (pending : list (ascii * string))
    : option string :=
  match pending with
  | [] => None
  | (opt, optarg) :: rest =>
      match last_arg c rest with
      | Some later => Some later
      | None => if Ascii.eqb opt c then Some optarg else None
      end
  end.

(** The option characters the [switch] of [parseArgs] has a [case] for. *)
Definition has_case (opt : ascii) : bool :=
  existsb (Ascii.eqb opt)
    ["t"; "v"; "k"; "l"; "d"; "g"; "h"]%char.

Section MoreReading.
Context {Paths Coverage : Type}.
Local Abbreviation Call := (Call Paths Coverage).

(** The file a call makes the program write: the log file the logger is
    told to open, or the file a writer of the output generator or of
    the contig extender is told to write.  No other call of the driver
    names a file to write ([Config::load] and [loadFromFile] read). *)
Definition output_file (c : Call) : option string :=
  match c with
  | Logger_setOutputFile file
  | outGen_outputDot _ file | outGen_outputGfa _ file
  | outGen_outputFasta _ file | outGen_dumpRepeats _ file
  | extender_outputContigs file | extender_outputStatsTable file
  | extender_outputScaffoldConnections file => Some file
  | _ => None
  end.

(** The paths a writer of the output generator is handed. *)
Definition writer_paths (c : Call) : option Paths :=
  match c with
  | outGen_outputDot paths _ | outGen_outputGfa paths _
  | outGen_outputFasta paths _ | outGen_dumpRepeats paths _ => Some paths
  | _ => None
  end.

(** The files written along a trace, each with the number of phase calls
    made before it; [done] counts those made before the trace. *)
Fixpoint outputs_with_progress (done : nat) (t : list Call)
    : list (string * nat) :=
  match t with
  | [] => []
  | c :: t' =>
      match output_file c with
      | Some file => (file, done) :: outputs_with_progress done t'
      | None =>
          outputs_with_progress (if in_phase c then S done else done) t'
      end
  end.

(** An assignment to the [Parameters] singleton. *)
Definition sets_parameter (c : Call) : bool :=
  match c with
  | Parameters_set_minimumOverlap _ | Parameters_set_kmerSize _
  | Parameters_set_numThreads _ => true
  | _ => false
  end.

(** A load into [seqReads]. *)
Definition loads_reads (c : Call) : bool :=
  match c with
  | loadFromFile seqReads _ _ => true
  | _ => false
  end.

(** The call carries the value the variables [o] hold, where it carries
    one of them. *)
Definition carries (o : Options) (c : Call) : Prop :=
  match c with
  | Parameters_set_minimumOverlap v => v = minOverlap o
  | Parameters_set_kmerSize v => v = kmerSize o
  | Parameters_set_numThreads v => v = numThreads o
  | Logger_setDebugging b => b = debug o
  | Logger_setOutputFile file => file = logFile o /\ file <> ""
  | Config_load path => path = configPath o
  | loadFromFile seqAssembly path _ => path = inAssembly o
  | extender_generateContigs b => b = graphContinue o
  | _ => True
  end.

End MoreReading.

Section MoreShapes.
Context {Paths Coverage : Type} (env : Externals Paths Coverage).
Local Abbreviation History := (History Paths Coverage).

(** Whether every file of the list loads into [seqReads], the loads being
    made one after the other from history [h] on. *)
Fixpoint reads_load (h : History) (files : list string) : bool :=
  match files with
  | [] => true
  | file :: rest =>
      match SequenceContainer_loadFromFile env h seqReads file with
      | Loaded => reads_load (h ++ [loadFromFile seqReads file Loaded]) rest
      | ParseException _ => false
      end
  end.

(** Whether the assembly and every reads file load in the run that
    [parseArgs] left with the variables [o]. *)
Definition inputs_load (o : Options) : bool :=
  let h := setup_calls env ++ config_calls env o in
  match SequenceContainer_loadFromFile env h seqAssembly (inAssembly o) with
  | Loaded =>
      reads_load (h ++ [loadFromFile seqAssembly (inAssembly o) Loaded])
        (splitString env (readsFasta o) ","%char)
  | ParseException _ => false
  end.

(** The log file of a run, opened before any phase: the argument of
    [-l], wherever it points, unless it is empty. *)
Definition log_output (o : Options) : list (string * nat) :=
  if decide (logFile o = "") then [] else [(logFile o, 0%nat)].

(** The twelve files the pipeline writes under [out_folder], with the
    number of phase calls made before each is written. *)
Definition expected_outputs (o : Options) : list (string * nat) :=
  [(outFolder o +:+ "/graph_raw.dot", 1%nat);
   (outFolder o +:+ "/graph_before_rr.dot", 8%nat);
   (outFolder o +:+ "/graph_before_rr.gfa", 8%nat);
   (outFolder o +:+ "/graph_before_rr.fasta", 8%nat);
   (outFolder o +:+ "/graph_after_rr.dot", 10%nat);
   (outFolder o +:+ "/graph_paths.fasta", 12%nat);
   (outFolder o +:+ "/contigs_stats.txt", 12%nat);
   (outFolder o +:+ "/scaffolds_links.txt", 12%nat);
   (outFolder o +:+ "/repeats_dump.txt", 12%nat);
   (outFolder o +:+ "/graph_final.dot", 12%nat);
   (outFolder o +:+ "/graph_final.fasta", 12%nat);
   (outFolder o +:+ "/graph_final.gfa", 12%nat)].

End MoreShapes.

(** More command lines and a stack for the reference instance. *)
Module Sample.

(** [-k] twice, a negative thread count, an option the program does not
    know, a log file and [-g]. *)
Definition argv_repeated : list string :=
  ["repeat"; "-k"; "17"; "-t"; "-1"; "-k"; "21"; "-x"; "-l"; "run.log";
   "-g"; "asm.fasta"; "r1.fasta"; "out"; "cfg"].

(** An empty [reads_files]. *)
Definition argv_no_reads : list string :=
  ["repeat"; "asm.fasta"; ""; "out"; "cfg"].

(** Variables that already hold something when [parseArgs] is called. *)
Definition stale_locals : Options :=
  {| readsFasta := "old_reads.fasta"; outFolder := "old_out";
     logFile := "old.log"; inAssembly := "old.fasta";
     kmerSize := 31; minOverlap := 1000; debug := true; numThreads := 4;
     configPath := "old.cfg"; graphContinue := true |}.

(** A stack of twelve frames. *)
Definition deep_stack : list string :=
  ["f0"; "f1"; "f2"; "f3"; "f4"; "f5"; "f6"; "f7"; "f8"; "f9"; "f10"; "f11"].

End Sample.

(** ** The driver at work *)

Example getopt_on_options :
  Reference.posix_getopt Reference.argv_options optString =
  {| returned := [("t"%char, "8"); ("k"%char, "17"); ("d"%char, "");
                  ("v"%char, "3000")];
     optind := 6;
     argv_final := Reference.argv_options |}.
Proof. reflexivity. Qed.

Example parse_options :
  parseArgs Reference.env Reference.argv_options main_locals [] =
  (Normal (true,
           {| readsFasta := "r1.fasta"; outFolder := "out"; logFile := "";
              inAssembly := "asm.fasta"; kmerSize := 17; minOverlap := 3000;
              debug := true; numThreads := 8; configPath := "cfg";
              graphContinue := false |}), []).
Proof. vm_compute. reflexivity. Qed.

Example example_help :
  main Reference.env Reference.argv_help [] =
  (Exits 0, [signal_SIGSEGV; set_terminate; printUsage (Some "repeat")]).
Proof. vm_compute. reflexivity. Qed.

Example example_short :
  main Reference.env Reference.argv_short [] =
  (Normal 1%Z, [signal_SIGSEGV; set_terminate; printUsage (Some "repeat")]).
Proof. vm_compute. reflexivity. Qed.

Example example_bad_reads :
  main Reference.env Reference.argv_bad_reads [] =
  (Normal 1%Z,
   [signal_SIGSEGV; set_terminate;
    Parameters_set_minimumOverlap 5000; Parameters_set_kmerSize 15;
    Parameters_set_numThreads 1;
    Logger_setDebugging false;
    Logger_debug "Build date: Jan  1 2017 00:00:00";
    sync_with_stdio false; Config_load "cfg";
    Logger_info "Reading sequences";
    loadFromFile seqAssembly "asm.fasta" Loaded;
    loadFromFile seqReads "r1.fasta" Loaded;
    loadFromFile seqReads "broken.fasta" (ParseException "parse error");
    Logger_error "parse error"]).
Proof. vm_compute. reflexivity. Qed.

Example example_plain :
  exit_status Reference.env Reference.argv_plain = Some 0%Z
  /\ length (trace Reference.env Reference.argv_plain) = 58%nat
  /\ phases (trace Reference.env Reference.argv_plain) =
     [Build; Simplify; Align; Infer; Infer; Infer; Infer;
      Resolve; Resolve; Resolve; Extend; Extend].
Proof. vm_compute. repeat split. Qed.

Example negative_thread_count :
  size_t_of_int (Reference.decimal_atoi "-1") = 18446744073709551615%Z.
Proof. reflexivity. Qed.

(** ** Facts about [parseArgs] *)

Section ParseFacts.
Context {Paths Coverage : Type} (env : Externals Paths Coverage).
Local Abbreviation Call := (Call Paths Coverage).
Local Abbreviation History := (History Paths Coverage).

Ltac each_char opt := destruct opt as [[] [] [] [] [] [] [] []].

Lemma getopt_loop_cons argv opt optarg pending o :
  getopt_loop env argv ((opt, optarg) :: pending) o =
  if Ascii.eqb opt "h" then
    bind (call (printUsage (argv !! 0%nat))) (fun _ => exit 0)
  else getopt_loop env argv pending (option_step env opt optarg o).
Proof. each_char opt; reflexivity. Qed.

Lemma option_step_minOverlap opt optarg o :
  opt ≠ "v"%char ->
  minOverlap (option_step env opt optarg o) = minOverlap o.
Proof. intros Hne. each_char opt; first [reflexivity | congruence]. Qed.

Lemma option_step_kmerSize opt optarg o :
  opt ≠ "k"%char ->
  kmerSize (option_step env opt optarg o) = kmerSize o.
Proof. intros Hne. each_char opt; first [reflexivity | congruence]. Qed.

Lemma option_step_numThreads opt optarg o :
  opt ≠ "t"%char ->
  numThreads (option_step env opt optarg o) = numThreads o.
Proof. intros Hne. each_char opt; first [reflexivity | congruence]. Qed.

Lemma scan_options_minOverlap pending o :
  "v"%char ∉ pending.*1 ->
  minOverlap (scan_options env pending o) = minOverlap o.
Proof.
  revert o. induction pending as [|[opt optarg] pending IH]; intros o Hv.
  - reflexivity.
  - cbn in Hv. apply not_elem_of_cons in Hv as [Hne Hv].
    cbn. rewrite IH by exact Hv.
    apply option_step_minOverlap. congruence.
Qed.

Lemma scan_options_kmerSize pending o :
  "k"%char ∉ pending.*1 ->
  kmerSize (scan_options env pending o) = kmerSize o.
Proof.
  revert o. induction pending as [|[opt optarg] pending IH]; intros o Hv.
  - reflexivity.
  - cbn in Hv. apply not_elem_of_cons in Hv as [Hne Hv].
    cbn. rewrite IH by exact Hv.
    apply option_step_kmerSize. congruence.
Qed.

Lemma scan_options_numThreads pending o :
  "t"%char ∉ pending.*1 ->
  numThreads (scan_options env pending o) = numThreads o.
Proof.
  revert o. induction pending as [|[opt optarg] pending IH]; intros o Hv.
  - reflexivity.
  - cbn in Hv. apply not_elem_of_cons in Hv as [Hne Hv].
    cbn. rewrite IH by exact Hv.
    apply option_step_numThreads. congruence.
Qed.

Lemma getopt_loop_help argv pending o (h : History) :
  "h"%char ∈ pending.*1 ->
  getopt_loop env argv pending o h =
  (Exits 0, [printUsage (argv !! 0%nat)]).
Proof.
  revert o. induction pending as [|[opt optarg] pending IH]; intros o Hin.
  - cbn in Hin. by apply elem_of_nil in Hin.
  - rewrite getopt_loop_cons. destruct (Ascii.eqb_spec opt "h") as [->|Hne].
    + reflexivity.
    + apply IH. cbn in Hin. apply elem_of_cons in Hin as [Heq|Hin];
        [congruence | exact Hin].
Qed.

Lemma getopt_loop_done argv pending o (h : History) :
  "h"%char ∉ pending.*1 ->
  getopt_loop env argv pending o h =
  (Normal (scan_options env pending o), []).
Proof.
  revert o. induction pending as [|[opt optarg] pending IH]; intros o Hno.
  - reflexivity.
  - cbn in Hno. apply not_elem_of_cons in Hno as [Hne Hno].
    rewrite getopt_loop_cons.
    destruct (Ascii.eqb_spec opt "h") as [->|_]; [congruence|].
    cbn. by apply IH.
Qed.

(** The three ways [parseArgs] ends. *)
Lemma parseArgs_help argv o (h : History) :
  "h"%char ∈ options_given env argv ->
  parseArgs env argv o h = (Exits 0, [printUsage (argv !! 0%nat)]).
Proof.
  intros Hin. unfold parseArgs, bind.
  by rewrite getopt_loop_help.
Qed.

Lemma parseArgs_usage argv o (h : History) :
  "h"%char ∉ options_given env argv ->
  remaining env argv ≠ 4%Z ->
  parseArgs env argv o h =
  (Normal (false, scanned env argv o), [printUsage (argv !! 0%nat)]).
Proof.
  intros Hno Hrem. unfold parseArgs, bind.
  rewrite getopt_loop_done by exact Hno.
  unfold remaining in Hrem. rewrite decide_True by exact Hrem.
  reflexivity.
Qed.

Lemma parseArgs_ok argv o (h : History) :
  "h"%char ∉ options_given env argv ->
  remaining env argv = 4%Z ->
  parseArgs env argv o h = (Normal (true, parsed env argv o), []).
Proof.
  intros Hno Hrem. unfold parseArgs, bind.
  rewrite getopt_loop_done by exact Hno.
  unfold remaining in Hrem. rewrite decide_False by (intros Hc; by apply Hc).
  reflexivity.
Qed.

(** With no [-v], [-k], [-t] on the command line the parsed values are
    the defaults, whatever the variables held before the call. *)
Lemma scanned_defaults argv o :
  ("v"%char ∉ options_given env argv ->
   minOverlap (scanned env argv o) = 5000%Z)
  /\ ("k"%char ∉ options_given env argv ->
      kmerSize (scanned env argv o) = 15%Z)
  /\ ("t"%char ∉ options_given env argv ->
      numThreads (scanned env argv o) = 1%Z).
Proof.
  unfold scanned, options_given.
  repeat split; intros Hno.
  - by rewrite scan_options_minOverlap.
  - by rewrite scan_options_kmerSize.
  - by rewrite scan_options_numThreads.
Qed.

(** The values [parseArgs] leaves are the defaults unless the option
    that sets them was given, whatever it returns and whatever the
    variables held before. *)
Lemma parseArgs_defaults argv o0 (h : History) b o t :
  parseArgs env argv o0 h = (Normal (b, o), t) ->
  ("v"%char ∉ options_given env argv -> minOverlap o = 5000%Z)
  /\ ("k"%char ∉ options_given env argv -> kmerSize o = 15%Z)
  /\ ("t"%char ∉ options_given env argv -> numThreads o = 1%Z).
Proof.
  intros Hparse.
  destruct (decide ("h"%char ∈ options_given env argv)) as [Hh|Hh].
  { rewrite parseArgs_help in Hparse by exact Hh. discriminate Hparse. }
  destruct (decide (remaining env argv = 4%Z)) as [Hrem|Hrem].
  - rewrite parseArgs_ok in Hparse by assumption.
    injection Hparse as _ <- _. apply (scanned_defaults argv o0).
  - rewrite parseArgs_usage in Hparse by assumption.
    injection Hparse as _ <- _. apply scanned_defaults.
Qed.

End ParseFacts.

(** ** Facts about loading and about [main] as a whole *)

Section RunFacts.
Context {Paths Coverage : Type} (env : Externals Paths Coverage).
Local Abbreviation Call := (Call Paths Coverage).
Local Abbreviation History := (History Paths Coverage).

Lemma load_reads_spec files (h : History) :
  load_reads env files h = (Normal tt, loaded_calls seqReads files)
  \/ exists before file after what,
       files = before ++ file :: after
       /\ load_reads env files h =
          (Throws what,
           loaded_calls seqReads before
           ++ [loadFromFile seqReads file (ParseException what)]).
Proof.
  revert h. induction files as [|file files IH]; intros h.
  - by left.
  - cbn [load_reads]. unfold bind, load.
    destruct (SequenceContainer_loadFromFile env h seqReads file)
      as [|what] eqn:Hload.
    + cbn beta iota.
      destruct (IH (h ++ [loadFromFile seqReads file Loaded]))
        as [Hok|(before & bad & after & what & Hsplit & Hbad)].
      * left. by rewrite Hok.
      * right. exists (file :: before), bad, after, what.
        split; [by rewrite Hsplit|]. by rewrite Hbad.
    + right. by exists [], file, files, what.
Qed.

Lemma assemble_returns o (h : History) : fst (assemble env o h) = Normal 0%Z.
Proof. reflexivity. Qed.

Lemma snd_bind_call {A} c (k : unit -> Run Paths Coverage A) (h : History) :
  snd (bind (call c) k h) = c :: snd (k tt (h ++ [c])).
Proof. unfold bind, call. by destruct (k tt (h ++ [c])). Qed.

Lemma snd_bind_query {A V} c (f : History -> V)
    (k : V -> Run Paths Coverage A) (h : History) :
  snd (bind (query c f) k h) = c :: snd (k (f h) (h ++ [c])).
Proof. unfold bind, query. by destruct (k (f h) (h ++ [c])). Qed.

(** The assembly makes the calls of [assemble_calls], in which every
    answer is the one the collaborator gave at that point. *)
Lemma assemble_spec o (h : History) :
  exists a,
    snd (assemble env o h) = assemble_calls o a /\ answers_from env h o a.
Proof.
  unfold assemble.
  rewrite !snd_bind_call, snd_bind_query.
  remember (GraphProcessor_getEdgesPaths env _) as p1 eqn:Hp1 in |- *.
  rewrite !snd_bind_call, snd_bind_query.
  remember (GraphProcessor_getEdgesPaths env _) as p2 eqn:Hp2 in |- *.
  rewrite !snd_bind_call, snd_bind_query.
  remember (GraphProcessor_getEdgesPaths env _) as p3 eqn:Hp3 in |- *.
  rewrite !snd_bind_call, snd_bind_query.
  remember (GraphProcessor_getEdgesPaths env _) as p4 eqn:Hp4 in |- *.
  rewrite !snd_bind_call, snd_bind_query.
  remember (GraphProcessor_getEdgesPaths env _) as p5 eqn:Hp5 in |- *.
  rewrite !snd_bind_call, snd_bind_query.
  remember (MultiplicityInferer_getMeanCoverage env _) as cov eqn:Hcov in |- *.
  rewrite !snd_bind_call, snd_bind_query.
  remember (ContigExtender_getUnbranchingPaths env _) as u1 eqn:Hu1 in |- *.
  rewrite !snd_bind_call, snd_bind_query.
  remember (ContigExtender_getUnbranchingPaths env _) as u2 eqn:Hu2 in |- *.
  rewrite !snd_bind_call, snd_bind_query.
  remember (ContigExtender_getUnbranchingPaths env _) as u3 eqn:Hu3 in |- *.
  rewrite !snd_bind_call, snd_bind_query.
  remember (ContigExtender_getUnbranchingPaths env _) as u4 eqn:Hu4 in |- *.
  rewrite !snd_bind_call. cbn [ret snd].
  exists {| raw_paths := p1; before_rr_dot := p2; before_rr_gfa := p3;
            before_rr_fasta := p4; after_rr_dot := p5;
            mean_coverage := cov; final_dump := u1; final_dot := u2;
            final_fasta := u3; final_gfa := u4 |}.
  split; [reflexivity|].
  unfold answers_from, assemble_calls.
  cbn [take raw_paths before_rr_dot before_rr_gfa before_rr_fasta
       after_rr_dot mean_coverage final_dump final_dot final_fasta
       final_gfa].
  repeat split;
    match goal with
    | H : ?p = _ |- ?p = _ =>
        repeat rewrite <- app_assoc in H; cbn [app] in H; exact H
    end.
Qed.

Lemma configure_and_load_spec o (h : History) :
  configure_and_load env o h =
    (Normal None, config_calls env o ++ all_loads env o)
  \/ exists loads what,
       load_failure env o loads what
       /\ configure_and_load env o h =
          (Normal (Some 1%Z),
           config_calls env o ++ loads ++ [Logger_error what]).
Proof.
  unfold configure_and_load, config_calls.
  destruct (decide (logFile o = "")) as [Hlog|Hlog].
  all: cbv [bind call ret try_catch load].
  all: match goal with
       | |- context [SequenceContainer_loadFromFile env ?hh seqAssembly ?f] =>
           destruct (SequenceContainer_loadFromFile env hh seqAssembly f)
             as [|bad] eqn:Hasm
       end.
  all: try (right; eexists _, _; split; [apply assembly_fails|];
            reflexivity).
  all: match goal with
       | |- context [load_reads env ?fs ?hh] =>
           destruct (load_reads_spec fs hh)
             as [Hok|(before & file & after & bad & Hsplit & Hbad)]
       end.
  all: try (left; rewrite Hok; unfold all_loads; cbn [app];
            rewrite ?app_nil_r; reflexivity).
  all: right; eexists _, _;
       (split; [eapply reads_fail; exact Hsplit|]);
       rewrite Hbad; cbn [app]; rewrite <- ?app_assoc; reflexivity.
Qed.

Lemma setup_spec (h : History) :
  (if DEBUG_defined env then ret tt
   else bind (call signal_SIGSEGV) (fun _ => call set_terminate)) h =
  (Normal tt, setup_calls env).
Proof. unfold setup_calls. by destruct (DEBUG_defined env). Qed.

(** Every process takes one of the four shapes. *)
Lemma main_complete argv : main_run env argv (main env argv []).
Proof.
  unfold main. unfold bind at 1. rewrite setup_spec. cbn [app].
  destruct (decide ("h"%char ∈ options_given env argv)) as [Hh|Hh].
  - unfold bind. rewrite parseArgs_help by exact Hh. by apply run_help.
  - destruct (decide (remaining env argv = 4%Z)) as [Hrem|Hrem].
    + unfold bind at 1. rewrite parseArgs_ok by assumption.
      cbn [fst snd negb]. rewrite app_nil_r. cbn [app]. unfold bind.
      destruct (configure_and_load_spec (parsed env argv main_locals)
                  (setup_calls env))
        as [Hok|(loads & what & Hfail & Hbad)].
      * rewrite Hok.
        pose proof (run_assembly env argv _ Hh Hrem eq_refl) as Hrun.
        rewrite (surjective_pairing (assemble _ _ _)).
        rewrite assemble_returns. rewrite <- !app_assoc in *.
        exact Hrun.
      * rewrite Hbad. unfold ret. rewrite app_nil_r.
        by apply run_input_error.
    + unfold bind. rewrite parseArgs_usage by assumption.
      cbn [fst negb ret app].
      by apply run_usage.
Qed.

(** *** What the calls before line 199 are *)

Lemma setup_preamble : preamble (setup_calls env).
Proof.
  unfold preamble, setup_calls.
  destruct (DEBUG_defined env); repeat constructor.
Qed.

Lemma config_preamble o : preamble (config_calls env o).
Proof.
  unfold preamble, config_calls.
  destruct (decide (logFile o = "")); repeat constructor.
Qed.

Lemma loaded_preamble c files :
  preamble (loaded_calls c files : list Call).
Proof.
  unfold preamble, loaded_calls.
  induction files; constructor; done.
Qed.

Lemma all_loads_preamble o : preamble (all_loads env o).
Proof. constructor; [done | apply loaded_preamble]. Qed.

Lemma load_failure_preamble o loads what :
  load_failure env o loads what -> preamble loads.
Proof.
  intros [bad | before file after bad Hsplit].
  - by repeat constructor.
  - constructor; [done|]. apply Forall_app. split.
    + apply loaded_preamble.
    + by repeat constructor.
Qed.

Lemma before_assembly_preamble o :
  preamble (setup_calls env ++ config_calls env o ++ all_loads env o).
Proof.
  unfold preamble. rewrite !Forall_app.
  repeat split;
    [apply setup_preamble | apply config_preamble | apply all_loads_preamble].
Qed.

Lemma preamble_no_phase (t : list Call) : preamble t -> phases t = [].
Proof.
  induction 1 as [|c t Hc _ IH]; [done|].
  unfold phases in *. cbn. rewrite IH. by destruct c.
Qed.

Lemma preamble_not_ctor (t : list Call) c :
  preamble t -> c ∈ t -> is_ctor c = false.
Proof.
  intros Hpre Hin. unfold preamble in Hpre. rewrite Forall_forall in Hpre.
  specialize (Hpre c Hin). by destruct c.
Qed.

(** A trace that starts with preamble calls, cut at a call that is not
    one: the cut falls after the preamble. *)
Lemma cut_after_preamble (before rest pre post : list Call) c :
  preamble before ->
  is_preamble c = false ->
  before ++ rest = pre ++ c :: post ->
  exists mid, pre = before ++ mid /\ rest = mid ++ c :: post.
Proof.
  intros Hpre Hc. revert pre.
  induction Hpre as [|b before Hb _ IH]; intros pre Heq.
  - by exists pre.
  - destruct pre as [|x pre]; cbn in Heq.
    + injection Heq as -> _. congruence.
    + injection Heq as -> Heq.
      destruct (IH pre Heq) as (mid & -> & ->). by exists mid.
Qed.

(** *** Reading "after" off a trace *)

Lemma after_check_sound (earlier later : Call -> Prop)
    (earlier_b later_b : Call -> bool) seen (t : list Call) :
  (forall c, earlier_b c = true -> earlier c) ->
  (forall c, later c -> later_b c = true) ->
  after_check earlier_b later_b seen t = true ->
  forall pre c post,
    t = pre ++ c :: post -> later c ->
    seen = true \/ exists c0, c0 ∈ pre /\ earlier c0.
Proof.
  intros He Hl. revert seen.
  induction t as [|x t IH]; intros seen Hcheck pre c post Heq Hlater.
  - by destruct pre.
  - cbn in Hcheck. apply andb_prop in Hcheck as [Hx Hrest].
    destruct pre as [|y pre]; cbn in Heq.
    + injection Heq as -> ->. rewrite (Hl _ Hlater) in Hx. by left.
    + injection Heq as -> ->.
      destruct (IH _ Hrest pre c post eq_refl Hlater)
        as [Hseen|(c0 & Hin & Hc0)].
      * apply orb_prop in Hseen as [Hseen|Hy]; [by left|].
        right. exists y. split; [by left | by apply He].
      * right. exists c0. split; [by right | done].
Qed.

(** *** The two kinds of traces *)

(** A process either stops in the preamble or runs the whole assembly
    after it. *)
Lemma trace_shape argv :
  preamble (trace env argv)
  \/ (exists before a,
        before = setup_calls env
                 ++ config_calls env (parsed env argv main_locals)
                 ++ all_loads env (parsed env argv main_locals)
        /\ trace env argv =
           before ++ assemble_calls (parsed env argv main_locals) a
        /\ answers_from env before (parsed env argv main_locals) a
        /\ exit_status env argv = Some 0%Z
        /\ ("h"%char ∉ options_given env argv)
        /\ remaining env argv = 4%Z).
Proof.
  unfold trace, exit_status.
  pose proof (main_complete argv) as Hrun.
  destruct Hrun as [Hh | Hh Hrem | loads what Hh Hrem Hfail
                   | before Hh Hrem Hbefore].
  - left. cbn [fst snd].
    apply Forall_app. split; [apply setup_preamble | by repeat constructor].
  - left. cbn [fst snd].
    apply Forall_app. split; [apply setup_preamble | by repeat constructor].
  - left. cbn [fst snd].
    unfold preamble. rewrite !Forall_app.
    repeat split.
    + apply setup_preamble.
    + apply config_preamble.
    + exact (load_failure_preamble _ _ _ Hfail).
    + by repeat constructor.
  - right.
    destruct (assemble_spec (parsed env argv main_locals) before)
      as (a & Hcalls & Hanswers).
    exists before, a. cbn [fst snd]. rewrite Hcalls. done.
Qed.

End RunFacts.

(** ** Properties of the driver *)

Section Properties.
Context {Paths Coverage : Type} (env : Externals Paths Coverage).
Local Abbreviation Call := (Call Paths Coverage).
Local Abbreviation History := (History Paths Coverage).

(** When four arguments are left, the four reads of [argv] on lines
    97-100 are within the vector. *)
Lemma positional_in_range argv i :
  remaining env argv = 4%Z ->
  (i < 4)%nat ->
  is_Some (argv_final (getopt env argv optString)
           !! (optind (getopt env argv optString) + i)%nat).
Proof.
  intros Hrem Hi. apply lookup_lt_is_Some.
  rewrite (Permutation_length (getopt_permutes env argv optString)).
  unfold remaining in Hrem. lia.
Qed.

Lemma preamble_outside (t : list Call) :
  preamble t -> Forall outside_pipeline t.
Proof.
  intros Hpre. eapply Forall_impl; [exact Hpre|].
  intros c Hc. by destruct c.
Qed.

Lemma preamble_elem (t : list Call) c :
  preamble t -> c ∈ t -> is_preamble c = true.
Proof.
  intros Hpre Hin. unfold preamble in Hpre. rewrite Forall_forall in Hpre.
  by apply Hpre.
Qed.

Lemma preamble_filter_phase (t : list Call) :
  preamble t -> List.filter in_phase t = [].
Proof.
  induction 1 as [|c t Hc _ IH]; [done|].
  cbn. rewrite IH. by destruct c.
Qed.

Lemma preamble_filter_infer (t : list Call) :
  preamble t -> List.filter is_infer_pass t = [].
Proof.
  induction 1 as [|c t Hc _ IH]; [done|].
  cbn. rewrite IH. by destruct c.
Qed.

Lemma setup_no_load :
  Forall (fun c : Call => is_load c = false) (setup_calls env).
Proof.
  unfold setup_calls. destruct (DEBUG_defined env); repeat constructor.
Qed.

Lemma config_no_load o :
  Forall (fun c : Call => is_load c = false) (config_calls env o).
Proof.
  unfold config_calls.
  destruct (decide (logFile o = "")); repeat constructor.
Qed.

Lemma assemble_calls_no_load o a :
  Forall (fun c : Call => is_load c = false) (assemble_calls o a).
Proof. unfold assemble_calls. repeat constructor. Qed.

Lemma no_load_not_raised (t : list Call) c :
  Forall (fun c => is_load c = false) t -> c ∈ t -> load_raised c = false.
Proof.
  intros Hall Hin. rewrite Forall_forall in Hall.
  specialize (Hall c Hin). by destruct c.
Qed.

Lemma loaded_not_raised container files (c : Call) :
  c ∈ loaded_calls container files -> load_raised c = false.
Proof.
  unfold loaded_calls. intros Hin.
  apply list_elem_of_fmap in Hin as (file & -> & _). reflexivity.
Qed.

Lemma load_failure_last o loads what :
  load_failure env o loads what ->
  exists t container path,
    loads = t ++ [loadFromFile container path (ParseException what)].
Proof.
  intros [bad | before file after bad Hsplit].
  - by exists [], seqAssembly, (inAssembly o).
  - exists (loadFromFile seqAssembly (inAssembly o) Loaded
            :: loaded_calls seqReads before), seqReads, file.
    reflexivity.
Qed.

Lemma always_after_trace (earlier later : Call -> Prop)
    (earlier_b later_b : Call -> bool) argv :
  (forall c, earlier_b c = true -> earlier c) ->
  (forall c, later c -> later_b c = true) ->
  (forall c, is_preamble c = true -> later_b c = false) ->
  (forall o a,
      after_check earlier_b later_b false (assemble_calls o a) = true) ->
  always_after earlier later (trace env argv).
Proof.
  intros He Hl Hpl Hcheck pre c post Hsplit Hlater.
  assert (is_preamble c = false) as Hc.
  { destruct (is_preamble c) eqn:Hc; [|reflexivity].
    apply Hpl in Hc. apply Hl in Hlater. congruence. }
  destruct (trace_shape env argv) as [Hpre|(before & a & Hbefore & Ht & _)].
  - unfold preamble in Hpre. rewrite Forall_forall in Hpre.
    rewrite Hpre in Hc; [discriminate Hc|].
    rewrite Hsplit. apply elem_of_app. right. left.
  - assert (preamble before) as Hpre
      by (subst before; apply before_assembly_preamble).
    rewrite Ht in Hsplit.
    apply cut_after_preamble in Hsplit as (mid & -> & Hmid);
      [|exact Hpre|exact Hc].
    destruct (after_check_sound earlier later earlier_b later_b false
                _ He Hl (Hcheck _ a) mid c post Hmid Hlater)
      as [Hseen|(c0 & Hin & Hc0)]; [discriminate Hseen|].
    exists c0. split; [|exact Hc0]. apply elem_of_app. by right.
Qed.

Lemma stable_along (l h : History) :
  paths_stable env ->
  Forall (fun c => writes_output c = true
                   \/ c = extender_getUnbranchingPaths) l ->
  ContigExtender_getUnbranchingPaths env (h ++ l) =
  ContigExtender_getUnbranchingPaths env h.
Proof.
  intros Hstable. induction l as [|c l IH] using rev_ind; intros Hall.
  - by rewrite app_nil_r.
  - apply Forall_app in Hall as [Hl Hc]. apply Forall_cons in Hc as [Hc _].
    rewrite app_assoc. rewrite Hstable by exact Hc. by apply IH.
Qed.

Lemma files_loaded_preamble_free c (t : list Call) :
  Forall (fun call => is_load call = false) t -> files_loaded c t = [].
Proof.
  induction 1 as [|x t Hx _ IH]; [done|].
  unfold files_loaded in *. cbn. rewrite IH. by destruct x.
Qed.

Lemma files_loaded_app c (t1 t2 : list Call) :
  files_loaded c (t1 ++ t2) = files_loaded c t1 ++ files_loaded c t2.
Proof. apply omap_app. Qed.

Lemma files_loaded_same c files :
  files_loaded c (loaded_calls c files : list Call) = files.
Proof.
  unfold files_loaded, loaded_calls.
  induction files as [|f files IH]; [done|].
  cbn. rewrite IH. by destruct c.
Qed.

Lemma files_loaded_other c c' files :
  c ≠ c' -> files_loaded c (loaded_calls c' files : list Call) = [].
Proof.
  intros Hne. unfold files_loaded, loaded_calls.
  induction files as [|f files IH]; [done|].
  cbn. rewrite IH. by destruct c, c'.
Qed.

Lemma files_loaded_reads_of_all o :
  files_loaded seqReads (all_loads env o) =
  splitString env (readsFasta o) ","%char.
Proof. exact (files_loaded_same seqReads _). Qed.

Lemma files_loaded_assembly_of_all o :
  files_loaded seqAssembly (all_loads env o) = [inAssembly o].
Proof.
  unfold all_loads.
  change (files_loaded seqAssembly
            (loadFromFile seqAssembly (inAssembly o) Loaded
             :: loaded_calls seqReads (splitString env (readsFasta o) ",")))
    with (inAssembly o
          :: files_loaded seqAssembly
               (loaded_calls seqReads (splitString env (readsFasta o) ",")
                : list Call)).
  by rewrite files_loaded_other.
Qed.

Lemma files_loaded_reads_of_failure o loads what :
  load_failure env o loads what ->
  files_loaded seqReads loads
    `prefix_of` splitString env (readsFasta o) ","%char.
Proof.
  intros [bad | before file after bad Hsplit].
  - apply prefix_nil.
  - change (files_loaded seqReads
              (loadFromFile seqAssembly (inAssembly o) Loaded
               :: loaded_calls seqReads before
               ++ [loadFromFile seqReads file (ParseException bad)]))
      with (files_loaded seqReads
              (loaded_calls seqReads before
               ++ [loadFromFile seqReads file (ParseException bad) : Call])).
    rewrite files_loaded_app, files_loaded_same, Hsplit.
    exists after. by rewrite <- app_assoc.
Qed.

(** In every run, whatever its end, the files handed to
    [seqReads.loadFromFile] are the first pieces of the list, in list
    order: loading stops at the first file that raises. *)
Lemma reads_loaded_in_list_order argv :
  files_loaded seqReads (trace env argv)
    `prefix_of` splitString env
                  (readsFasta (parsed env argv main_locals)) ","%char.
Proof.
  unfold trace.
  pose proof (main_complete env argv) as Hrun.
  destruct Hrun as [Hh | Hh Hrem | loads what Hh Hrem Hfail
                   | before Hh Hrem Hbefore]; cbn [snd].
  - rewrite files_loaded_app.
    rewrite (files_loaded_preamble_free seqReads _ setup_no_load).
    apply prefix_nil.
  - rewrite files_loaded_app.
    rewrite (files_loaded_preamble_free seqReads _ setup_no_load).
    apply prefix_nil.
  - rewrite !files_loaded_app.
    rewrite (files_loaded_preamble_free seqReads _ setup_no_load).
    rewrite (files_loaded_preamble_free seqReads _
               (config_no_load (parsed env argv main_locals))).
    cbn [app]. rewrite app_nil_r.
    by apply (files_loaded_reads_of_failure _ _ what).
  - destruct (assemble_spec env (parsed env argv main_locals) before)
      as (a & -> & _).
    subst before. rewrite !files_loaded_app.
    rewrite (files_loaded_preamble_free seqReads _ setup_no_load).
    rewrite (files_loaded_preamble_free seqReads _
               (config_no_load (parsed env argv main_locals))).
    rewrite (files_loaded_preamble_free seqReads _
               (assemble_calls_no_load (parsed env argv main_locals) a)).
    cbn [app]. rewrite app_nil_r, files_loaded_reads_of_all. done.
Qed.

(** Cuts an explicit list at every position: [H] equates the list with
    [mid ++ c :: post]; what is left are the positions whose call can
    be [c], with [H] relating the two heads and tails. *)
Ltac walk H :=
  repeat match type of H with
    | [] = ?m ++ _ :: _ => destruct m; discriminate H
    | _ :: _ = ?m ++ _ :: _ =>
        destruct m as [|? m]; cbn [app] in H;
        [try discriminate H | injection H as <- H]
    end.

(** C1.  In every run that gets as far as constructing the repeat
    graph, [parseArgs] has returned [true] and the phase calls are, in
    call order, exactly: build, simplify,
    align, the four inference passes, the three resolver passes, the two
    generation steps of the contig extender.  Hence the phases of the
    successive calls never go back: build, simplify, align, infer,
    resolve, extend. *)
Theorem phases_in_order argv :
  RepeatGraph_ctor seqAssembly ∈ trace env argv ->
  parseArgs env argv main_locals (setup_calls env) =
    (Normal (true, parsed env argv main_locals), [])
  /\ List.filter in_phase (trace env argv) =
    [rg_build; proc_simplify; aligner_alignReads;
     multInf_estimateCoverage; multInf_removeUnsupportedEdges;
     multInf_removeUnsupportedConnections; multInf_separateHaplotypes;
     resolver_findRepeats; resolver_resolveRepeats; resolver_fixLongEdges;
     extender_generateUnbranchingPaths;
     extender_generateContigs
       (graphContinue (parsed env argv main_locals))]
  /\ StronglySorted phase_le (phases (trace env argv)).
Proof.
  intros Hreach.
  destruct (trace_shape env argv)
    as [Hpre|(before & a & Hbefore & Ht & _ & _ & Hh & Hrem)].
  - by apply (preamble_not_ctor _ _ Hpre) in Hreach.
  - assert (preamble before) as Hpre
      by (subst before; apply before_assembly_preamble).
    split; [by apply parseArgs_ok|].
    rewrite Ht. split.
    + rewrite List.filter_app, preamble_filter_phase by exact Hpre.
      reflexivity.
    + unfold phases. rewrite omap_app.
      fold (phases before). rewrite preamble_no_phase by exact Hpre.
      cbn. repeat constructor; unfold phase_le; cbn; lia.
Qed.

(** C3.  In every run in which a [loadFromFile] raises
    [ParseException], the process ends with status 1, the last two
    calls are the failed load and [Logger::error] with the exception's
    message, and no call of the run constructs a pipeline component,
    belongs to a pipeline phase or writes an output file. *)
Theorem input_error_aborts argv c :
  c ∈ trace env argv ->
  load_raised c = true ->
  exit_status env argv = Some 1%Z
  /\ (exists t container path what,
        trace env argv =
        t ++ [loadFromFile container path (ParseException what);
              Logger_error what])
  /\ Forall outside_pipeline (trace env argv).
Proof.
  unfold trace, exit_status.
  pose proof (main_complete env argv) as Hrun.
  destruct Hrun as [Hh | Hh Hrem | loads what Hh Hrem Hfail
                   | before Hh Hrem Hbefore];
    cbn [fst snd]; intros Hin Hraised.
  - apply elem_of_app in Hin as [Hin|Hin].
    + apply (no_load_not_raised _ _ setup_no_load) in Hin. congruence.
    + apply list_elem_of_singleton in Hin as ->. discriminate Hraised.
  - apply elem_of_app in Hin as [Hin|Hin].
    + apply (no_load_not_raised _ _ setup_no_load) in Hin. congruence.
    + apply list_elem_of_singleton in Hin as ->. discriminate Hraised.
  - split; [reflexivity|]. split.
    + destruct (load_failure_last _ _ _ Hfail) as (t & container & path & ->).
      exists (setup_calls env ++ config_calls env (parsed env argv main_locals)
              ++ t), container, path, what.
      rewrite <- !app_assoc. reflexivity.
    + apply preamble_outside. unfold preamble. rewrite !Forall_app.
      repeat split.
      * apply setup_preamble.
      * apply config_preamble.
      * exact (load_failure_preamble _ _ _ _ Hfail).
      * by repeat constructor.
  - exfalso. subst before.
    destruct (assemble_spec env (parsed env argv main_locals)
                (setup_calls env
                 ++ config_calls env (parsed env argv main_locals)
                 ++ all_loads env (parsed env argv main_locals)))
      as (a & Hcalls & _).
    rewrite Hcalls in Hin. rewrite !elem_of_app in Hin.
    destruct Hin as [[Hin|[Hin|Hin]]|Hin].
    + apply (no_load_not_raised _ _ setup_no_load) in Hin. congruence.
    + apply (no_load_not_raised _ _ (config_no_load _)) in Hin. congruence.
    + unfold all_loads in Hin. apply elem_of_cons in Hin as [->|Hin].
      * discriminate Hraised.
      * apply loaded_not_raised in Hin. congruence.
    + apply (no_load_not_raised _ _ (assemble_calls_no_load _ _)) in Hin.
      congruence.
Qed.

(** C4.  Whenever the resolver is touched, be it constructed or asked
    to run [findRepeats], [resolveRepeats] or [fixLongEdges], the calls
    made before contain the passes of the multiplicity inferer exactly
    as [estimateCoverage], [removeUnsupportedEdges],
    [removeUnsupportedConnections], [separateHaplotypes], in this order:
    the four passes are over before the resolution phase begins, and in
    particular before [resolveRepeats]. *)
Theorem inference_before_resolution argv pre c post :
  trace env argv = pre ++ c :: post ->
  on_resolver c = true ->
  List.filter is_infer_pass pre =
    [multInf_estimateCoverage; multInf_removeUnsupportedEdges;
     multInf_removeUnsupportedConnections; multInf_separateHaplotypes].
Proof.
  intros Hsplit Hc.
  destruct (trace_shape env argv) as [Hpre|(before & a & Hbefore & Ht & _)].
  - rewrite Hsplit in Hpre. apply Forall_app in Hpre as [_ Hpre].
    apply Forall_cons in Hpre as [Hc' _]. by destruct c.
  - assert (preamble before) as Hpre
      by (subst before; apply before_assembly_preamble).
    rewrite Ht in Hsplit.
    apply cut_after_preamble in Hsplit as (mid & -> & Hmid);
      [|exact Hpre|by destruct c].
    rewrite List.filter_app, preamble_filter_infer by exact Hpre.
    cbn [app]. clear Ht Hbefore Hpre.
    unfold assemble_calls in Hmid. walk Hmid.
    all: injection Hmid as Hhead _; subst c.
    all: first [discriminate Hc | reflexivity].
Qed.

(** C5.  In every run in which the resolver is constructed, its three
    passes are called in the order [findRepeats], [resolveRepeats],
    [fixLongEdges]; every call of [resolveRepeats] comes after a call
    of [findRepeats], and every call of [fixLongEdges] after a call of
    [resolveRepeats] and after a call of [findRepeats]. *)
Theorem resolver_passes_in_order argv :
  RepeatResolver_ctor seqAssembly seqReads ∈ trace env argv ->
  [resolver_findRepeats; resolver_resolveRepeats; resolver_fixLongEdges]
    `sublist_of` trace env argv
  /\ always_after (eq resolver_findRepeats) (eq resolver_resolveRepeats)
       (trace env argv)
  /\ always_after (eq resolver_resolveRepeats) (eq resolver_fixLongEdges)
       (trace env argv)
  /\ always_after (eq resolver_findRepeats) (eq resolver_fixLongEdges)
       (trace env argv).
Proof.
  intros Hreach. split.
  - destruct (trace_shape env argv) as [Hpre|(before & a & _ & Ht & _)].
    + by apply (preamble_not_ctor _ _ Hpre) in Hreach.
    + rewrite Ht. apply sublist_inserts_l. unfold assemble_calls.
      repeat first [apply sublist_nil_l | apply sublist_skip
                   | apply sublist_cons].
  - pose (is_find := fun c : Call =>
            match c with resolver_findRepeats => true | _ => false end).
    pose (is_resolve := fun c : Call =>
            match c with resolver_resolveRepeats => true | _ => false end).
    pose (is_fix := fun c : Call =>
            match c with resolver_fixLongEdges => true | _ => false end).
    repeat split.
    + apply (always_after_trace _ _ is_find is_resolve).
      * intros c Hc. by destruct c.
      * by intros c <-.
      * intros c Hc. by destruct c.
      * reflexivity.
    + apply (always_after_trace _ _ is_resolve is_fix).
      * intros c Hc. by destruct c.
      * by intros c <-.
      * intros c Hc. by destruct c.
      * reflexivity.
    + apply (always_after_trace _ _ is_find is_fix).
      * intros c Hc. by destruct c.
      * by intros c <-.
      * intros c Hc. by destruct c.
      * reflexivity.
Qed.

(** C6.  Whenever the [ContigExtender] is constructed, the call just
    before is [multInf.getMeanCoverage()], the coverage argument of the
    constructor is what that call returned, and the four passes of the
    multiplicity inferer have run by then. *)
Theorem mean_coverage_passed argv pre asm reads cov post :
  trace env argv = pre ++ ContigExtender_ctor asm reads cov :: post ->
  exists pre',
    pre = pre' ++ [multInf_getMeanCoverage]
    /\ cov = MultiplicityInferer_getMeanCoverage env pre'
    /\ List.filter is_infer_pass pre' =
         [multInf_estimateCoverage; multInf_removeUnsupportedEdges;
          multInf_removeUnsupportedConnections; multInf_separateHaplotypes].
Proof.
  intros Hsplit.
  destruct (trace_shape env argv)
    as [Hpre|(before & a & Hbefore & Ht & Hanswers & _)].
  - rewrite Hsplit in Hpre. apply Forall_app in Hpre as [_ Hpre].
    apply Forall_cons in Hpre as [Hc _]. discriminate Hc.
  - assert (preamble before) as Hpre
      by (subst before; apply before_assembly_preamble).
    rewrite Ht in Hsplit.
    apply cut_after_preamble in Hsplit as (mid & -> & Hmid);
      [|exact Hpre|reflexivity].
    destruct Hanswers as (_ & _ & _ & _ & _ & Hcov & _).
    clear Ht Hbefore.
    unfold assemble_calls in Hmid, Hcov. cbn [take] in Hcov.
    walk Hmid. injection Hmid as _ _ <- _.
    exists (before
            ++ take 30 (assemble_calls (parsed env argv main_locals) a)).
    split; [|split].
    + rewrite <- app_assoc. reflexivity.
    + exact Hcov.
    + rewrite List.filter_app, preamble_filter_infer by exact Hpre.
      reflexivity.
Qed.

(** C7.  In every run that calls [generateUnbranchingPaths],
    [parseArgs] has returned [true] and the trace ends with the calls of
    lines 234-247: [generateUnbranchingPaths], [generateContigs], the
    three writers of the extender, then four
    times [extender.getUnbranchingPaths()] followed by a writer of the
    output generator (repeats dump, DOT, FASTA, GFA) that receives what
    this accessor has just returned.  Before these calls
    [resolveRepeats] and [fixLongEdges] have run and no generation step
    of the extender has.  If writing outputs and reading the paths do
    not change them, the four writers receive the same paths, those the
    extender holds after [generateContigs]. *)
Theorem unbranching_paths_feed_outputs argv :
  extender_generateUnbranchingPaths ∈ trace env argv ->
  let o := parsed env argv main_locals in
  exists pre u1 u2 u3 u4,
    let tail := contig_generation_calls o u1 u2 u3 u4 in
    parseArgs env argv main_locals (setup_calls env) = (Normal (true, o), [])
    /\ trace env argv = pre ++ tail
    /\ [resolver_resolveRepeats; resolver_fixLongEdges] `sublist_of` pre
    /\ Forall (fun c => phase_of c ≠ Some Extend) pre
    /\ u1 = ContigExtender_getUnbranchingPaths env (pre ++ take 5 tail)
    /\ u2 = ContigExtender_getUnbranchingPaths env (pre ++ take 7 tail)
    /\ u3 = ContigExtender_getUnbranchingPaths env (pre ++ take 9 tail)
    /\ u4 = ContigExtender_getUnbranchingPaths env (pre ++ take 11 tail)
    /\ (paths_stable env ->
        let held :=
          ContigExtender_getUnbranchingPaths env (pre ++ take 2 tail) in
        u1 = held /\ u2 = held /\ u3 = held /\ u4 = held).
Proof.
  intros Hreach o.
  destruct (trace_shape env argv)
    as [Hpre|(before & a & Hbefore & Ht & Hanswers & _ & Hh & Hrem)].
  { apply (preamble_elem _ _ Hpre) in Hreach.
    discriminate Hreach. }
  assert (preamble before) as Hpre
    by (subst before; apply before_assembly_preamble).
  fold o in Ht, Hanswers. clear Hbefore.
  destruct Hanswers as (_ & _ & _ & _ & _ & _ & Hu1 & Hu2 & Hu3 & Hu4).
  exists (before ++ take 32 (assemble_calls o a)),
    (final_dump a), (final_dot a), (final_fasta a), (final_gfa a).
  cbn zeta.
  assert (forall n,
    (before ++ take 32 (assemble_calls o a))
    ++ take n (contig_generation_calls o (final_dump a) (final_dot a)
                 (final_fasta a) (final_gfa a))
    = before ++ take (32 + n) (assemble_calls o a)) as Hupto.
  { intros n. rewrite <- app_assoc. reflexivity. }
  rewrite !Hupto.
  split; [by apply parseArgs_ok|].
  split; [|split; [|split]].
  - rewrite Ht, <- app_assoc. reflexivity.
  - apply sublist_inserts_l. unfold assemble_calls. cbn [take].
    repeat first [apply sublist_nil_l | apply sublist_skip
                 | apply sublist_cons].
  - apply Forall_app. split.
    + eapply Forall_impl; [exact Hpre|]. intros c Hc. by destruct c.
    + unfold assemble_calls. cbn [take]. repeat constructor; discriminate.
  - split; [exact Hu1|]. split; [exact Hu2|]. split; [exact Hu3|].
    split; [exact Hu4|].
    intros Hstable.
    rewrite Hu1, Hu2, Hu3, Hu4.
    assert (forall n l,
      take (34 + n) (assemble_calls o a)
      = take 34 (assemble_calls o a) ++ l ->
      Forall (fun c : Call => writes_output c = true
                              \/ c = extender_getUnbranchingPaths) l ->
      ContigExtender_getUnbranchingPaths env
        (before ++ take (34 + n) (assemble_calls o a))
      = ContigExtender_getUnbranchingPaths env
          (before ++ take 34 (assemble_calls o a))) as Hheld.
    { intros n l -> Hl. rewrite app_assoc. by apply stable_along. }
    cbn zeta. repeat split.
    + eapply (Hheld 3%nat); [reflexivity|].
      repeat constructor; (by left) || (by right).
    + eapply (Hheld 5%nat); [reflexivity|].
      repeat constructor; (by left) || (by right).
    + eapply (Hheld 7%nat); [reflexivity|].
      repeat constructor; (by left) || (by right).
    + eapply (Hheld 9%nat); [reflexivity|].
      repeat constructor; (by left) || (by right).
Qed.

(** C8, as amended.  When [getopt] returns no [-h] and the number of
    arguments left after the options is not 4, [parseArgs] prints the
    usage message and returns [false], and [main] returns 1 having made
    no call but the installation of the handlers and [printUsage]: it
    assigns no parameter, opens no log file, reads neither the
    configuration nor a sequence file, and constructs no component. *)
Theorem wrong_count_rejected argv :
  "h"%char ∉ options_given env argv ->
  remaining env argv ≠ 4%Z ->
  usage_rejected env argv.
Proof.
  intros Hh Hrem. unfold usage_rejected.
  split; [intros h; eexists; by apply parseArgs_usage|].
  unfold exit_status, trace.
  pose proof (main_complete env argv) as Hrun.
  destruct Hrun as [Hh' | _ _ | loads what _ Hrem' _ | before _ Hrem' _];
    try contradiction.
  cbn [fst snd]. split; [reflexivity|]. split; [reflexivity|].
  split; apply Forall_app; split;
    solve [ unfold setup_calls; destruct (DEBUG_defined env);
            repeat constructor
          | repeat constructor; by right ].
Qed.

(** C9.  In every run that gets to the read alignment, [parseArgs]
    has returned [true], [reads_files] is the second of the four
    positional arguments, the files loaded
    into [seqReads] are exactly the pieces [splitString] cuts it into
    at [','], in that order, the only file loaded into [seqAssembly] is
    [in_assembly], none of the loads raised, and the aligner was
    constructed on these two containers. *)
Theorem reads_pooled argv :
  aligner_alignReads ∈ trace env argv ->
  let scan := getopt env argv optString in
  let o := parsed env argv main_locals in
  parseArgs env argv main_locals (setup_calls env) = (Normal (true, o), [])
  /\ readsFasta o = default "" (argv_final scan !! (optind scan + 1)%nat)
  /\ is_Some (argv_final scan !! (optind scan + 1)%nat)
  /\ files_loaded seqReads (trace env argv) =
     splitString env (readsFasta o) ","%char
  /\ files_loaded seqAssembly (trace env argv) = [inAssembly o]
  /\ Forall (fun c => load_raised c = false) (trace env argv)
  /\ ReadAligner_ctor seqAssembly seqReads ∈ trace env argv.
Proof.
  intros Hreach scan o.
  destruct (trace_shape env argv)
    as [Hpre|(before & a & Hbefore & Ht & _ & _ & Hh & Hrem)].
  { apply (preamble_elem _ _ Hpre) in Hreach.
    discriminate Hreach. }
  split; [by apply parseArgs_ok|].
  split; [reflexivity|].
  split; [apply positional_in_range; [exact Hrem | lia]|].
  assert (forall c, files_loaded c (trace env argv)
                    = files_loaded c (all_loads env o)) as Hloads.
  { intros c. rewrite Ht. subst before. fold o.
    rewrite !files_loaded_app.
    rewrite (files_loaded_preamble_free c _ setup_no_load).
    rewrite (files_loaded_preamble_free c _ (config_no_load o)).
    rewrite (files_loaded_preamble_free c _ (assemble_calls_no_load o a)).
    by rewrite app_nil_r. }
  rewrite !Hloads, files_loaded_reads_of_all, files_loaded_assembly_of_all.
  rewrite Ht. subst before. fold o.
  repeat split.
  - rewrite !Forall_app. repeat split.
    + eapply Forall_impl; [apply setup_no_load|]. intros c Hc. by destruct c.
    + eapply Forall_impl; [apply config_no_load|]. intros c Hc. by destruct c.
    + constructor; [reflexivity|].
      apply Forall_forall. intros c Hc. by apply loaded_not_raised in Hc.
    + eapply Forall_impl; [apply assemble_calls_no_load|].
      intros c Hc. by destruct c.
  - apply elem_of_app. right.
    unfold assemble_calls. do 2 right. left.
Qed.

(** C10.  When [-h] is among the options [getopt] returns, the process
    ends by [exit(0)] and the usage message is the last thing it did:
    before it only the process set-up of lines 154-155 took place, so
    the positional arguments were not checked, no file was loaded and
    no component was constructed. *)
Theorem help_exits_at_once argv :
  "h"%char ∈ options_given env argv ->
  main env argv [] =
    (Exits 0, setup_calls env ++ [printUsage (argv !! 0%nat)])
  /\ exit_status env argv = Some 0%Z
  /\ Forall (fun c => is_load c = false /\ is_ctor c = false)
       (trace env argv).
Proof.
  intros Hh.
  assert (main env argv [] =
          (Exits 0, setup_calls env ++ [printUsage (argv !! 0%nat)]))
    as Hmain.
  { unfold main. unfold bind at 1. rewrite setup_spec. cbn [app].
    unfold bind. by rewrite parseArgs_help. }
  unfold exit_status, trace. rewrite Hmain. cbn [fst snd].
  split; [reflexivity|]. split; [reflexivity|].
  apply Forall_app. split.
  - unfold setup_calls. destruct (DEBUG_defined env); repeat constructor.
  - repeat constructor.
Qed.

End Properties.

(** ** The properties on the reference instance *)

Ltac find_call := vm_compute; repeat constructor.
Ltac no_option := vm_compute; apply not_elem_of_nil.

Lemma phases_in_order_witness :
  RepeatGraph_ctor seqAssembly ∈ trace Reference.env Reference.argv_plain
  /\ StronglySorted phase_le
       (phases (trace Reference.env Reference.argv_plain)).
Proof.
  assert (RepeatGraph_ctor seqAssembly
          ∈ trace Reference.env Reference.argv_plain) as Hreach
    by find_call.
  split; [exact Hreach|].
  exact (proj2 (proj2 (phases_in_order Reference.env Reference.argv_plain
                         Hreach))).
Defined.

Lemma input_error_aborts_witness :
  exit_status Reference.env Reference.argv_bad_reads = Some 1%Z.
Proof.
  refine (proj1 (input_error_aborts Reference.env Reference.argv_bad_reads
                   (loadFromFile seqReads "broken.fasta"
                      (ParseException "parse error")) _ eq_refl)).
  find_call.
Defined.

Lemma inference_before_resolution_witness :
  List.filter is_infer_pass
    (take 38 (trace Reference.env Reference.argv_plain)) =
  [multInf_estimateCoverage; multInf_removeUnsupportedEdges;
   multInf_removeUnsupportedConnections; multInf_separateHaplotypes].
Proof.
  assert (trace Reference.env Reference.argv_plain
          = take 38 (trace Reference.env Reference.argv_plain)
            ++ resolver_resolveRepeats
               :: drop 39 (trace Reference.env Reference.argv_plain))
    as Hsplit by (vm_compute; reflexivity).
  exact (inference_before_resolution Reference.env Reference.argv_plain
           _ _ _ Hsplit eq_refl).
Defined.

Lemma resolver_passes_in_order_witness :
  [resolver_findRepeats; resolver_resolveRepeats; resolver_fixLongEdges]
    `sublist_of` trace Reference.env Reference.argv_options.
Proof.
  refine (proj1 (resolver_passes_in_order Reference.env
                   Reference.argv_options _)).
  find_call.
Defined.

Lemma mean_coverage_passed_witness :
  exists pre',
    take 44 (trace Reference.env Reference.argv_plain)
    = pre' ++ [multInf_getMeanCoverage]
    /\ 43%nat = MultiplicityInferer_getMeanCoverage Reference.env pre'.
Proof.
  assert (trace Reference.env Reference.argv_plain
          = take 44 (trace Reference.env Reference.argv_plain)
            ++ ContigExtender_ctor seqAssembly seqReads 43%nat
               :: drop 45 (trace Reference.env Reference.argv_plain))
    as Hsplit by (vm_compute; reflexivity).
  destruct (mean_coverage_passed Reference.env Reference.argv_plain
              _ _ _ _ _ Hsplit)
    as (pre' & Hpre & Hcov & _).
  exists pre'. split; [exact Hpre | exact Hcov].
Defined.

Lemma unbranching_paths_feed_outputs_witness :
  exists pre u1 u2 u3 u4,
    trace Reference.env Reference.argv_plain =
    pre ++ contig_generation_calls
             (parsed Reference.env Reference.argv_plain main_locals)
             u1 u2 u3 u4.
Proof.
  assert (extender_generateUnbranchingPaths
          ∈ trace Reference.env Reference.argv_plain) as Hreach
    by find_call.
  destruct (unbranching_paths_feed_outputs Reference.env
              Reference.argv_plain Hreach)
    as (pre & u1 & u2 & u3 & u4 & _ & Ht & _).
  exists pre, u1, u2, u3, u4. exact Ht.
Defined.

Lemma wrong_count_rejected_witness :
  usage_rejected Reference.env Reference.argv_short.
Proof.
  apply wrong_count_rejected.
  - no_option.
  - vm_compute. discriminate.
Defined.

(** C8 as it is stated fails on [-h]: nothing is left after the options
    of [repeat -h], yet the process exits with status 0 from inside
    [parseArgs], which therefore never returns [false], and [main]
    never returns 1. *)
Lemma wrong_count_with_help :
  remaining Reference.env Reference.argv_help ≠ 4%Z
  /\ main Reference.env Reference.argv_help []
     = (Exits 0%Z, [signal_SIGSEGV; set_terminate; printUsage (Some "repeat")])
  /\ exit_status Reference.env Reference.argv_help = Some 0%Z
  /\ (forall o0 h b o t,
        parseArgs Reference.env Reference.argv_help o0 h
        ≠ (Normal (b, o), t))
  /\ ~ usage_rejected Reference.env Reference.argv_help.
Proof.
  split; [vm_compute; discriminate|].
  split; [vm_compute; reflexivity|].
  split; [vm_compute; reflexivity|].
  split.
  - intros o0 h b o t Hp. vm_compute in Hp. discriminate Hp.
  - intros (_ & Hexit & _). vm_compute in Hexit. discriminate Hexit.
Qed.

Lemma reads_pooled_witness :
  files_loaded seqReads (trace Reference.env Reference.argv_plain)
  = splitString Reference.env
      (readsFasta (parsed Reference.env Reference.argv_plain main_locals))
      ","%char.
Proof.
  assert (aligner_alignReads ∈ trace Reference.env Reference.argv_plain)
    as Hreach by find_call.
  exact (proj1 (proj2 (proj2 (proj2
           (reads_pooled Reference.env Reference.argv_plain Hreach))))).
Defined.

Lemma help_exits_at_once_witness :
  exit_status Reference.env Reference.argv_help = Some 0%Z.
Proof.
  refine (proj1 (proj2 (help_exits_at_once Reference.env
                          Reference.argv_help _))).
  vm_compute. repeat constructor.
Defined.

(** ** Further properties of [parseArgs] *)

Section MoreParseFacts.
Context {Paths Coverage : Type} (env : Externals Paths Coverage).
Local Abbreviation Call := (Call Paths Coverage).
Local Abbreviation History := (History Paths Coverage).

Ltac every_char opt := destruct opt as [[] [] [] [] [] [] [] []].

Lemma option_step_no_case opt optarg o :
  has_case opt = false ->
  Ascii.eqb opt "h" = false /\ option_step env opt optarg o = o.
Proof. every_char opt; cbn; intros Hc; first [discriminate Hc | done]. Qed.

Lemma option_step_fields opt optarg o :
  kmerSize (option_step env opt optarg o)
    = (if Ascii.eqb opt "k" then atoi env optarg else kmerSize o)
  /\ minOverlap (option_step env opt optarg o)
    = (if Ascii.eqb opt "v" then atoi env optarg else minOverlap o)
  /\ numThreads (option_step env opt optarg o)
    = (if Ascii.eqb opt "t" then size_t_of_int (atoi env optarg)
       else numThreads o)
  /\ logFile (option_step env opt optarg o)
    = (if Ascii.eqb opt "l" then optarg else logFile o)
  /\ debug (option_step env opt optarg o)
    = (Ascii.eqb opt "d" || debug o)
  /\ graphContinue (option_step env opt optarg o)
    = (Ascii.eqb opt "g" || graphContinue o)
  /\ readsFasta (option_step env opt optarg o) = readsFasta o
  /\ outFolder (option_step env opt optarg o) = outFolder o
  /\ inAssembly (option_step env opt optarg o) = inAssembly o
  /\ configPath (option_step env opt optarg o) = configPath o.
Proof. every_char opt; cbn; repeat split. Qed.

Lemma scan_options_fields pending : forall o,
  kmerSize (scan_options env pending o)
    = from_option (atoi env) (kmerSize o) (last_arg "k" pending)
  /\ minOverlap (scan_options env pending o)
    = from_option (atoi env) (minOverlap o) (last_arg "v" pending)
  /\ numThreads (scan_options env pending o)
    = from_option (fun a => size_t_of_int (atoi env a)) (numThreads o)
        (last_arg "t" pending)
  /\ logFile (scan_options env pending o)
    = from_option id (logFile o) (last_arg "l" pending)
  /\ (debug (scan_options env pending o) = true
      <-> debug o = true \/ "d"%char ∈ pending.*1)
  /\ (graphContinue (scan_options env pending o) = true
      <-> graphContinue o = true \/ "g"%char ∈ pending.*1)
  /\ readsFasta (scan_options env pending o) = readsFasta o
  /\ outFolder (scan_options env pending o) = outFolder o
  /\ inAssembly (scan_options env pending o) = inAssembly o
  /\ configPath (scan_options env pending o) = configPath o.
Proof.
  induction pending as [|[opt optarg] pending IH]; intros o.
  - cbn. split_and!; try reflexivity.
    + split; [by left|]. intros [H|H]; [exact H | by apply elem_of_nil in H].
    + split; [by left|]. intros [H|H]; [exact H | by apply elem_of_nil in H].
  - cbn [scan_options last_arg fmap list_fmap fst].
    destruct (IH (option_step env opt optarg o))
      as (Hk & Hv & Ht & Hl & Hd & Hg & H1 & H2 & H3 & H4).
    destruct (option_step_fields opt optarg o)
      as (Sk & Sv & St & Sl & Sd & Sg & S1 & S2 & S3 & S4).
    rewrite Hk, Hv, Ht, Hl, Hd, Hg, H1, H2, H3, H4.
    rewrite Sk, Sv, St, Sl, Sd, Sg, S1, S2, S3, S4.
    split_and!; try reflexivity.
    + destruct (last_arg "k" pending); [done|]. by destruct (Ascii.eqb opt "k").
    + destruct (last_arg "v" pending); [done|]. by destruct (Ascii.eqb opt "v").
    + destruct (last_arg "t" pending); [done|]. by destruct (Ascii.eqb opt "t").
    + destruct (last_arg "l" pending); [done|]. by destruct (Ascii.eqb opt "l").
    + rewrite orb_true_iff, elem_of_cons.
      destruct (Ascii.eqb_spec opt "d"); intuition (subst; auto; congruence).
    + rewrite orb_true_iff, elem_of_cons.
      destruct (Ascii.eqb_spec opt "g"); intuition (subst; auto; congruence).
Qed.

(** Whatever [parseArgs] returns, it leaves the variables of the options
    as the option loop left them. *)
Lemma parseArgs_leaves argv o0 (h : History) b o t :
  parseArgs env argv o0 h = (Normal (b, o), t) ->
  kmerSize o = kmerSize (scanned env argv o0)
  /\ minOverlap o = minOverlap (scanned env argv o0)
  /\ numThreads o = numThreads (scanned env argv o0)
  /\ logFile o = logFile (scanned env argv o0)
  /\ debug o = debug (scanned env argv o0)
  /\ graphContinue o = graphContinue (scanned env argv o0)
  /\ (b = false -> o = scanned env argv o0).
Proof.
  intros Hparse.
  destruct (decide ("h"%char ∈ options_given env argv)) as [Hh|Hh].
  { rewrite parseArgs_help in Hparse by exact Hh. discriminate Hparse. }
  destruct (decide (remaining env argv = 4%Z)) as [Hrem|Hrem].
  - rewrite parseArgs_ok in Hparse by assumption.
    injection Hparse as <- <- _. repeat split. discriminate.
  - rewrite parseArgs_usage in Hparse by assumption.
    injection Hparse as <- <- _. repeat split.
Qed.

(** X1.  Whatever [parseArgs] returns and whatever the variables held
    before, each numeric option has the value of its last occurrence on
    the command line, converted by [atoi], and its default (15, 5000, 1)
    when it does not occur; the thread count, a [size_t], is never
    negative and below 2^64 even when [atoi] yields a negative number. *)
Theorem last_occurrence_wins argv o0 (h : History) b o t :
  parseArgs env argv o0 h = (Normal (b, o), t) ->
  let given := returned (getopt env argv optString) in
  kmerSize o = from_option (atoi env) 15%Z (last_arg "k" given)
  /\ minOverlap o = from_option (atoi env) 5000%Z (last_arg "v" given)
  /\ numThreads o
     = from_option (fun a => size_t_of_int (atoi env a)) 1%Z
         (last_arg "t" given)
  /\ (0 <= numThreads o < 2 ^ 64)%Z.
Proof.
  intros Hparse given.
  destruct (parseArgs_leaves _ _ _ _ _ _ Hparse) as (-> & -> & -> & _).
  unfold scanned. fold given.
  destruct (scan_options_fields given
              (set_kmerSize 15 (set_minOverlap 5000 (set_graphContinue false
                 (set_debug false (set_numThreads 1 o0))))))
    as (-> & -> & -> & _).
  cbn [kmerSize minOverlap numThreads set_kmerSize set_minOverlap
       set_graphContinue set_debug set_numThreads].
  split_and!; try reflexivity.
  - destruct (last_arg "t" given); cbn; [|lia].
    unfold size_t_of_int. apply Z.mod_pos_bound. lia.
  - destruct (last_arg "t" given); cbn; [|lia].
    unfold size_t_of_int. apply Z.mod_pos_bound. lia.
Qed.

(** X2.  Whatever [parseArgs] returns and whatever the variables held
    before, [debug] is set exactly when [-d] occurs and [graphContinue]
    exactly when [-g] occurs.  The log file is the argument of the last
    [-l]; without [-l] the variable keeps the value it had, for
    [parseArgs] does not reset it. *)
Theorem flags_and_log_file argv o0 (h : History) b o t :
  parseArgs env argv o0 h = (Normal (b, o), t) ->
  (debug o = true <-> "d"%char ∈ options_given env argv)
  /\ (graphContinue o = true <-> "g"%char ∈ options_given env argv)
  /\ logFile o
     = from_option id (logFile o0)
         (last_arg "l" (returned (getopt env argv optString))).
Proof.
  intros Hparse.
  destruct (parseArgs_leaves _ _ _ _ _ _ Hparse)
    as (_ & _ & _ & -> & -> & -> & _).
  unfold scanned, options_given.
  destruct (scan_options_fields (returned (getopt env argv optString))
              (set_kmerSize 15 (set_minOverlap 5000 (set_graphContinue false
                 (set_debug false (set_numThreads 1 o0))))))
    as (_ & _ & _ & -> & Hd & Hg & _).
  rewrite Hd, Hg. cbn [debug graphContinue logFile set_kmerSize
    set_minOverlap set_graphContinue set_debug set_numThreads].
  split_and!; [| |reflexivity]; intuition discriminate.
Qed.

(** X3.  An option character for which the [switch] has no [case], such
    as the ['?'] that [getopt] returns for an unknown option or a missing
    argument, changes nothing: the loop behaves as if [getopt] had
    returned only the characters with a [case]. *)
Theorem options_without_case_are_skipped argv pending o (h : History) :
  getopt_loop env argv pending o h
  = getopt_loop env argv
      (List.filter (fun p => has_case (fst p)) pending) o h.
Proof.
  revert o. induction pending as [|[opt optarg] pending IH]; intros o.
  - reflexivity.
  - cbn [List.filter fst]. destruct (has_case opt) eqn:Hcase.
    + rewrite !getopt_loop_cons. destruct (Ascii.eqb opt "h"); [done|].
      apply IH.
    + rewrite getopt_loop_cons.
      destruct (option_step_no_case opt optarg o Hcase) as [-> ->].
      apply IH.
Qed.

(** X4.  When no [-h] is given and four arguments are left,
    [parseArgs] returns [true] and makes no call of its own: it neither
    prints the usage message nor exits.  The four arguments from
    [optind] on, which are the last four of the vector as [getopt]
    leaves it, are [inAssembly], [readsFasta], [outFolder] and
    [configPath], in this order.  (What [getopt] writes to [stderr] for
    an option it does not know is not a call of [parseArgs] and is not
    spoken of.) *)
Theorem positional_arguments argv o0 (h : History) :
  "h"%char ∉ options_given env argv ->
  remaining env argv = 4%Z ->
  exists o,
    parseArgs env argv o0 h = (Normal (true, o), [])
    /\ drop (optind (getopt env argv optString))
         (argv_final (getopt env argv optString))
       = [inAssembly o; readsFasta o; outFolder o; configPath o].
Proof.
  intros Hh Hrem. exists (parsed env argv o0).
  split; [by apply parseArgs_ok|].
  unfold parsed. cbn zeta.
  cbn [inAssembly readsFasta outFolder configPath set_positional].
  set (scan := getopt env argv optString).
  assert (length (argv_final scan) = (optind scan + 4)%nat) as Hlen.
  { unfold scan.
    rewrite (Permutation_length (getopt_permutes env argv optString)).
    unfold remaining in Hrem. lia. }
  rewrite <- !(lookup_drop (argv_final scan) (optind scan)).
  assert (length (drop (optind scan) (argv_final scan)) = 4%nat) as Hdrop
    by (rewrite length_drop; lia).
  destruct (drop (optind scan) (argv_final scan))
    as [|a [|b' [|c [|d [|e rest]]]]]; try discriminate Hdrop.
  reflexivity.
Qed.

(** X5.  When [parseArgs] returns [false], the one call it has made is
    [printUsage], with [argv[0]], and the four variables of the
    positional arguments hold what they held before the call, whatever
    that was: they are left alone, not cleared.  (What [getopt] writes
    to [stderr] for an option it does not know is not a call of
    [parseArgs] and is not spoken of.) *)
Theorem rejection_leaves_positionals argv o0 (h : History) o t :
  parseArgs env argv o0 h = (Normal (false, o), t) ->
  t = [printUsage (argv !! 0%nat)]
  /\ inAssembly o = inAssembly o0
  /\ readsFasta o = readsFasta o0
  /\ outFolder o = outFolder o0
  /\ configPath o = configPath o0.
Proof.
  intros Hparse.
  destruct (decide ("h"%char ∈ options_given env argv)) as [Hh|Hh].
  { rewrite parseArgs_help in Hparse by exact Hh. discriminate Hparse. }
  destruct (decide (remaining env argv = 4%Z)) as [Hrem|Hrem].
  { rewrite parseArgs_ok in Hparse by assumption. discriminate Hparse. }
  rewrite parseArgs_usage in Hparse by assumption.
  injection Hparse as <- <-. split; [reflexivity|].
  unfold scanned.
  destruct (scan_options_fields (returned (getopt env argv optString))
              (set_kmerSize 15 (set_minOverlap 5000 (set_graphContinue false
                 (set_debug false (set_numThreads 1 o0))))))
    as (_ & _ & _ & _ & _ & _ & -> & -> & -> & ->).
  repeat split.
Qed.

End MoreParseFacts.

(** ** Further properties of [main] *)

Section MoreRunFacts.
Context {Paths Coverage : Type} (env : Externals Paths Coverage).
Local Abbreviation Call := (Call Paths Coverage).
Local Abbreviation History := (History Paths Coverage).

Lemma filter_none (f : Call -> bool) (t : list Call) :
  Forall (fun c => f c = false) t -> List.filter f t = [].
Proof.
  induction 1 as [|c t Hc _ IH]; [done|]. cbn. by rewrite Hc.
Qed.

Lemma all_loads_are_loads o :
  Forall (fun c : Call => is_load c = true) (all_loads env o).
Proof.
  constructor; [done|]. unfold loaded_calls.
  apply Forall_fmap. by apply Forall_true.
Qed.

Lemma load_failure_are_loads o loads what :
  load_failure env o loads what ->
  Forall (fun c : Call => is_load c = true) loads.
Proof.
  intros [bad | before file after bad Hsplit].
  - by repeat constructor.
  - constructor; [done|]. apply Forall_app. split.
    + unfold loaded_calls. apply Forall_fmap. by apply Forall_true.
    + by repeat constructor.
Qed.

(** The failed load comes last among the loads of a failing run, and the
    loads before it went well. *)
Lemma load_failure_split o loads what :
  load_failure env o loads what ->
  exists t container path,
    loads = t ++ [loadFromFile container path (ParseException what)]
    /\ Forall (fun c : Call => load_raised c = false) t.
Proof.
  intros [bad | before file after bad Hsplit].
  - by exists [], seqAssembly, (inAssembly o).
  - exists (loadFromFile seqAssembly (inAssembly o) Loaded
            :: loaded_calls seqReads before), seqReads, file.
    split; [reflexivity|]. constructor; [done|].
    unfold loaded_calls. apply Forall_fmap. by apply Forall_true.
Qed.

(** A list cut at a call with property [P] that no call of the first
    part has: the cut falls behind the first part. *)
Lemma cut_after (P : Call -> bool) (first rest pre post : list Call) c :
  Forall (fun x => P x = false) first ->
  P c = true ->
  first ++ rest = pre ++ c :: post ->
  exists mid, pre = first ++ mid /\ rest = mid ++ c :: post.
Proof.
  intros Hfirst Hc. revert pre.
  induction Hfirst as [|b first Hb _ IH]; intros pre Heq.
  - by exists pre.
  - destruct pre as [|x pre]; cbn in Heq.
    + injection Heq as -> _. congruence.
    + injection Heq as -> Heq.
      destruct (IH pre Heq) as (mid & -> & ->). by exists mid.
Qed.

(** The only call with property [P] in a list is found by any cut at
    such a call. *)
Lemma cut_unique (P : Call -> bool) (l1 l2 pre post : list Call) x c :
  Forall (fun y => P y = false) l1 ->
  Forall (fun y => P y = false) l2 ->
  P c = true ->
  l1 ++ x :: l2 = pre ++ c :: post ->
  pre = l1 /\ c = x /\ post = l2.
Proof.
  intros H1 H2 Hc Heq.
  destruct (cut_after P l1 (x :: l2) pre post c H1 Hc Heq)
    as (mid & -> & Hmid).
  destruct mid as [|y mid]; cbn in Hmid.
  - injection Hmid as -> ->. by rewrite app_nil_r.
  - injection Hmid as <- Hmid. exfalso.
    rewrite Hmid in H2. apply Forall_app in H2 as [_ H2].
    apply Forall_cons in H2 as [H2 _]. congruence.
Qed.

Lemma config_carries o : Forall (carries o) (config_calls env o : list Call).
Proof.
  unfold config_calls.
  destruct (decide (logFile o = "")); repeat constructor; done.
Qed.

Lemma loads_carry o (t : list Call) :
  Forall (fun c => is_load c = true) t ->
  (forall path r,
      loadFromFile seqAssembly path r ∈ t -> path = inAssembly o) ->
  Forall (carries o) t.
Proof.
  intros Hall Hasm. apply Forall_forall. intros c Hin.
  rewrite Forall_forall in Hall. specialize (Hall c Hin).
  destruct c; try discriminate Hall.
  destruct c; [|exact I]. cbn. by eapply Hasm.
Qed.

Lemma all_loads_assembly o path r :
  loadFromFile seqAssembly path r ∈ (all_loads env o : list Call) ->
  path = inAssembly o.
Proof.
  unfold all_loads, loaded_calls. intros Hin.
  apply elem_of_cons in Hin as [Heq|Hin]; [congruence|].
  apply list_elem_of_fmap in Hin as (file & Heq & _). discriminate Heq.
Qed.

Lemma load_failure_assembly o loads what path r :
  load_failure env o loads what ->
  loadFromFile seqAssembly path r ∈ loads ->
  path = inAssembly o.
Proof.
  intros [bad | before file after bad Hsplit] Hin.
  - apply list_elem_of_singleton in Hin. congruence.
  - apply elem_of_cons in Hin as [Heq|Hin]; [congruence|].
    apply elem_of_app in Hin as [Hin|Hin].
    + apply list_elem_of_fmap in Hin as (f & Heq & _). discriminate Heq.
    + apply list_elem_of_singleton in Hin. discriminate Hin.
Qed.

Lemma setup_carries o : Forall (carries o) (setup_calls env : list Call).
Proof.
  unfold setup_calls. destruct (DEBUG_defined env); repeat constructor.
Qed.

Lemma assemble_calls_carry o a :
  Forall (carries o) (assemble_calls o a : list Call).
Proof. unfold assemble_calls. repeat constructor. Qed.

Lemma trace_carries argv :
  Forall (carries (parsed env argv main_locals)) (trace env argv).
Proof.
  unfold trace.
  pose proof (main_complete env argv) as Hrun.
  destruct Hrun as [Hh | Hh Hrem | loads what Hh Hrem Hfail
                   | before Hh Hrem Hbefore]; cbn [snd].
  - apply Forall_app. split; [apply setup_carries | by repeat constructor].
  - apply Forall_app. split; [apply setup_carries | by repeat constructor].
  - rewrite !Forall_app. split_and!.
    + apply setup_carries.
    + apply config_carries.
    + apply loads_carry.
      * exact (load_failure_are_loads _ _ _ Hfail).
      * intros path r. exact (load_failure_assembly _ _ _ _ _ Hfail).
    + by repeat constructor.
  - destruct (assemble_spec env (parsed env argv main_locals) before)
      as (a & -> & _).
    subst before. rewrite !Forall_app. split_and!.
    + apply setup_carries.
    + apply config_carries.
    + apply loads_carry; [apply all_loads_are_loads|].
      intros path r. apply all_loads_assembly.
    + apply assemble_calls_carry.
Qed.

(** X6.  Every call of every run carries the value [parseArgs] left:
    the three [Parameters] assignments, [Logger::setDebugging],
    [Logger::setOutputFile] (made only for a non-empty name),
    [Config::load] with [config_path], the assembly load with
    [in_assembly] and [generateContigs] with the [-g] flag. *)
Theorem values_pass_through argv c :
  c ∈ trace env argv ->
  carries (parsed env argv main_locals) c.
Proof.
  intros Hin. pose proof (trace_carries argv) as Hall.
  rewrite Forall_forall in Hall. by apply Hall.
Qed.

Lemma parsed_logFile argv :
  logFile (parsed env argv main_locals)
  = from_option id ""
      (last_arg "l" (returned (getopt env argv optString))).
Proof.
  unfold parsed, scanned. cbn zeta. cbn [logFile set_positional].
  destruct (scan_options_fields env (returned (getopt env argv optString))
              (set_kmerSize 15 (set_minOverlap 5000 (set_graphContinue false
                 (set_debug false (set_numThreads 1 main_locals))))))
    as (_ & _ & _ & -> & _).
  reflexivity.
Qed.

Lemma setup_usage_only (argv : list string) (c : Call) :
  c ∈ setup_calls env ++ [printUsage (argv !! 0%nat)] ->
  c = signal_SIGSEGV \/ c = set_terminate \/ c = printUsage (argv !! 0%nat).
Proof.
  unfold setup_calls. destruct (DEBUG_defined env); cbn [app]; intros Hin.
  - apply list_elem_of_singleton in Hin. auto.
  - rewrite !elem_of_cons in Hin. destruct Hin as [?|[?|[?|Hin]]]; auto.
    by apply elem_of_nil in Hin.
Qed.

Lemma config_has_log_file o :
  logFile o <> "" ->
  Logger_setOutputFile (logFile o) ∈ (config_calls env o : list Call).
Proof.
  intros Hne. unfold config_calls. rewrite decide_False by exact Hne.
  apply elem_of_app. right. apply elem_of_app. left. left.
Qed.

(** X7.  The logger is given an output file exactly in the runs whose
    command line is accepted and has a [-l] with a non-empty argument;
    the file is the argument of the last [-l].  A run stopped by [-h] or
    by the count of arguments never opens a log file, and neither does
    [-l ""]. *)
Theorem log_file_opened argv file :
  Logger_setOutputFile file ∈ trace env argv
  <-> ("h"%char ∉ options_given env argv)
      /\ remaining env argv = 4%Z
      /\ last_arg "l" (returned (getopt env argv optString)) = Some file
      /\ file <> "".
Proof.
  split.
  - intros Hin.
    pose proof (trace_carries argv) as Hcarry.
    rewrite Forall_forall in Hcarry. specialize (Hcarry _ Hin).
    unfold carries in Hcarry. destruct Hcarry as [Hfile Hne].
    rewrite parsed_logFile in Hfile.
    assert (last_arg "l" (returned (getopt env argv optString)) = Some file)
      as Hlast.
    { destruct (last_arg "l" (returned (getopt env argv optString)));
        cbn in Hfile; congruence. }
    unfold trace in Hin.
    pose proof (main_complete env argv) as Hrun.
    destruct Hrun as [Hh | Hh Hrem | loads what Hh Hrem Hfail
                     | before Hh Hrem Hbefore]; cbn [snd] in Hin.
    + apply setup_usage_only in Hin as [?|[?|?]]; discriminate.
    + apply setup_usage_only in Hin as [?|[?|?]]; discriminate.
    + done.
    + done.
  - intros (Hh & Hrem & Hlast & Hne).
    assert (logFile (parsed env argv main_locals) = file) as Hfile
      by (rewrite parsed_logFile, Hlast; reflexivity).
    assert (Logger_setOutputFile file
            ∈ (config_calls env (parsed env argv main_locals) : list Call))
      as Hconfig.
    { rewrite <- Hfile. apply config_has_log_file. by rewrite Hfile. }
    unfold trace.
    pose proof (main_complete env argv) as Hrun.
    destruct Hrun as [Hh' | _ Hrem' | loads what _ _ _
                     | before _ _ Hbefore]; cbn [snd]; try contradiction.
    + rewrite !elem_of_app. auto.
    + subst before. rewrite !elem_of_app. auto.
Qed.

Lemma setup_sets_nothing :
  List.filter sets_parameter (setup_calls env : list Call) = [].
Proof. unfold setup_calls. by destruct (DEBUG_defined env). Qed.

Lemma config_sets_once o :
  List.filter sets_parameter (config_calls env o : list Call)
  = [Parameters_set_minimumOverlap (minOverlap o);
     Parameters_set_kmerSize (kmerSize o);
     Parameters_set_numThreads (numThreads o)].
Proof. unfold config_calls. by destruct (decide (logFile o = "")). Qed.

Lemma loads_set_nothing (t : list Call) :
  Forall (fun c => is_load c = true) t -> List.filter sets_parameter t = [].
Proof.
  intros Hall. apply filter_none.
  eapply Forall_impl; [exact Hall|]. intros c Hc. by destruct c.
Qed.

(** C2.  The values handed to [Parameters] are the ones [parseArgs]
    resolved, with the command line taking precedence over the built-in
    defaults.  First, whatever the variables held before the call and
    whatever [parseArgs] returns, the minimum overlap, the k-mer size
    and the thread count are the [atoi] of the argument of the last
    [-v], [-k] and [-t], and 5000, 15 and 1 when the option does not
    occur.  Second, whenever a pipeline component is constructed,
    [parseArgs] has returned [true] and the assignments to [Parameters]
    made before the construction are exactly three, minimum overlap,
    k-mer size and thread count in this order, each with the value
    [parseArgs] left; none of them is overwritten, neither before the
    construction nor after it. *)
Theorem parameters_injected argv :
  (forall o0 (h : History) b o t,
      parseArgs env argv o0 h = (Normal (b, o), t) ->
      let given := returned (getopt env argv optString) in
      minOverlap o = from_option (atoi env) 5000%Z (last_arg "v" given)
      /\ kmerSize o = from_option (atoi env) 15%Z (last_arg "k" given)
      /\ numThreads o
         = from_option (fun a => size_t_of_int (atoi env a)) 1%Z
             (last_arg "t" given)
      /\ ("v"%char ∉ options_given env argv -> minOverlap o = 5000%Z)
      /\ ("k"%char ∉ options_given env argv -> kmerSize o = 15%Z)
      /\ ("t"%char ∉ options_given env argv -> numThreads o = 1%Z))
  /\ (forall pre c post,
        trace env argv = pre ++ c :: post ->
        is_ctor c = true ->
        exists o,
          parseArgs env argv main_locals (setup_calls env)
          = (Normal (true, o), [])
          /\ List.filter sets_parameter pre
             = [Parameters_set_minimumOverlap (minOverlap o);
                Parameters_set_kmerSize (kmerSize o);
                Parameters_set_numThreads (numThreads o)]
          /\ [Parameters_set_minimumOverlap (minOverlap o);
              Parameters_set_kmerSize (kmerSize o);
              Parameters_set_numThreads (numThreads o)] `sublist_of` pre
          /\ List.filter sets_parameter (c :: post) = []).
Proof.
  split.
  - intros o0 h b o t Hparse given.
    destruct (parseArgs_defaults _ _ _ _ _ _ _ Hparse) as (Dv & Dk & Dt).
    destruct (parseArgs_leaves _ _ _ _ _ _ _ Hparse) as (Lk & Lv & Lt & _).
    destruct (scan_options_fields env given
                (set_kmerSize 15 (set_minOverlap 5000 (set_graphContinue false
                   (set_debug false (set_numThreads 1 o0))))))
      as (Fk & Fv & Ft & _).
    split_and!; try assumption.
    + etrans; [exact Lv | exact Fv].
    + etrans; [exact Lk | exact Fk].
    + etrans; [exact Lt | exact Ft].
  - intros pre c post Hsplit Hctor.
    destruct (trace_shape env argv)
      as [Hpre|(before & a & Hbefore & Ht & _ & _ & Hh & Hrem)].
    { assert (c ∈ trace env argv) as Hin
        by (rewrite Hsplit; apply elem_of_app; right; left).
      apply (preamble_not_ctor _ _ Hpre) in Hin. congruence. }
    exists (parsed env argv main_locals).
    split; [by apply parseArgs_ok|].
    assert (preamble before) as Hpre
      by (subst before; apply before_assembly_preamble).
    rewrite Ht in Hsplit.
    apply cut_after_preamble in Hsplit as (mid & -> & Hmid);
      [|exact Hpre|by destruct c].
    assert (List.filter sets_parameter
              (assemble_calls (parsed env argv main_locals) a) = [])
      as Hnone by reflexivity.
    rewrite Hmid, List.filter_app in Hnone.
    apply app_eq_nil in Hnone as [Hnone_mid Hnone_post].
    split_and!.
    + rewrite List.filter_app, Hnone_mid, app_nil_r. subst before.
      rewrite !List.filter_app, setup_sets_nothing, config_sets_once.
      by rewrite (loads_set_nothing _ (all_loads_are_loads _)).
    + apply sublist_inserts_r. subst before.
      apply sublist_inserts_l. apply sublist_inserts_r.
      unfold config_calls. apply sublist_inserts_r.
      repeat apply sublist_skip. apply sublist_nil_l.
    + exact Hnone_post.
Qed.


Lemma setup_usage_preamble (argv : list string) :
  preamble (setup_calls env ++ [printUsage (argv !! 0%nat) : Call]).
Proof.
  apply Forall_app. split; [apply setup_preamble | by repeat constructor].
Qed.

Lemma config_no_usage o :
  Forall (fun c : Call => forall argv0, c <> printUsage argv0)
    (config_calls env o).
Proof.
  unfold config_calls.
  destruct (decide (logFile o = "")); repeat constructor; discriminate.
Qed.

Lemma assemble_calls_no_usage o a :
  Forall (fun c : Call => forall argv0, c <> printUsage argv0)
    (assemble_calls o a).
Proof. unfold assemble_calls. repeat constructor; discriminate. Qed.

Lemma progress_quiet (t rest : list Call) n :
  Forall (fun c => output_file c = None /\ in_phase c = false) t ->
  outputs_with_progress n (t ++ rest) = outputs_with_progress n rest.
Proof.
  induction 1 as [|c t [Hfile Hphase] _ IH]; [done|].
  cbn [app outputs_with_progress]. by rewrite Hfile, Hphase.
Qed.

Lemma setup_quiet :
  Forall (fun c : Call => output_file c = None /\ in_phase c = false)
    (setup_calls env).
Proof.
  unfold setup_calls. destruct (DEBUG_defined env); repeat constructor.
Qed.

Lemma loads_quiet (t : list Call) :
  Forall (fun c => is_load c = true) t ->
  Forall (fun c => output_file c = None /\ in_phase c = false) t.
Proof.
  intros Hall. eapply Forall_impl; [exact Hall|].
  intros c Hc. by destruct c.
Qed.

Lemma progress_config o (rest : list Call) :
  outputs_with_progress 0 (config_calls env o ++ rest)
  = log_output o ++ outputs_with_progress 0 rest.
Proof.
  unfold config_calls, log_output.
  by destruct (decide (logFile o = "")).
Qed.

(** X10.  The files a run writes.  A run that constructs the repeat
    graph first opens the log file, if [-l] named a non-empty one
    (wherever it points), and then writes exactly twelve files, all
    directly under [out_folder], in this order and at these stages:
    [graph_raw.dot] after the build alone; [graph_before_rr.dot],
    [.gfa] and [.fasta] after the eighth phase call ([findRepeats]);
    [graph_after_rr.dot] after the tenth ([fixLongEdges]); the contigs,
    their statistics, the scaffold links, the repeats dump and
    [graph_final.dot], [.fasta], [.gfa] after all twelve.  A run that
    does not construct the repeat graph writes none of the twelve: it
    opens at most the log file. *)
Theorem outputs_and_their_stage argv :
  (RepeatGraph_ctor seqAssembly ∈ trace env argv ->
   outputs_with_progress 0 (trace env argv)
   = log_output (parsed env argv main_locals)
     ++ expected_outputs (parsed env argv main_locals))
  /\ (RepeatGraph_ctor seqAssembly ∉ trace env argv ->
      outputs_with_progress 0 (trace env argv) = []
      \/ outputs_with_progress 0 (trace env argv)
         = log_output (parsed env argv main_locals)).
Proof.
  unfold trace.
  pose proof (main_complete env argv) as Hrun.
  destruct Hrun as [Hh | Hh Hrem | loads what Hh Hrem Hfail
                   | before Hh Hrem Hbefore]; cbn [snd].
  - split.
    + intros Hin.
      by apply (preamble_not_ctor _ _ (setup_usage_preamble argv)) in Hin.
    + intros _. left. by rewrite (progress_quiet _ _ _ setup_quiet).
  - split.
    + intros Hin.
      by apply (preamble_not_ctor _ _ (setup_usage_preamble argv)) in Hin.
    + intros _. left. by rewrite (progress_quiet _ _ _ setup_quiet).
  - split.
    + intros Hin. exfalso.
      rewrite !elem_of_app in Hin. destruct Hin as [Hin|[Hin|[Hin|Hin]]].
      * by apply (preamble_not_ctor _ _ (setup_preamble env)) in Hin.
      * by apply (preamble_not_ctor _ _ (config_preamble env _)) in Hin.
      * by apply (preamble_not_ctor _ _
                    (load_failure_preamble _ _ _ _ Hfail)) in Hin.
      * apply list_elem_of_singleton in Hin. discriminate Hin.
    + intros _. right.
      rewrite (progress_quiet _ _ _ setup_quiet), progress_config.
      rewrite (progress_quiet _ _ _
                 (loads_quiet _ (load_failure_are_loads _ _ _ Hfail))).
      cbn. by rewrite app_nil_r.
  - destruct (assemble_spec env (parsed env argv main_locals) before)
      as (a & -> & _).
    split.
    + intros _. subst before. rewrite <- !app_assoc.
      rewrite (progress_quiet _ _ _ setup_quiet), progress_config.
      rewrite (progress_quiet _ _ _ (loads_quiet _ (all_loads_are_loads _))).
      reflexivity.
    + intros Hno. exfalso. apply Hno.
      apply elem_of_app. right. left.
Qed.

(** X11.  The usage message is printed exactly when [-h] is given or
    the number of arguments left is not 4; it is then printed once, as
    the last call of the run, after nothing but the installation of the
    handlers. *)
Theorem usage_printed argv :
  ((exists argv0, printUsage argv0 ∈ trace env argv)
   <-> "h"%char ∈ options_given env argv \/ remaining env argv <> 4%Z)
  /\ ((exists argv0, printUsage argv0 ∈ trace env argv) ->
      trace env argv = setup_calls env ++ [printUsage (argv !! 0%nat)]).
Proof.
  unfold trace.
  pose proof (main_complete env argv) as Hrun.
  destruct Hrun as [Hh | Hh Hrem | loads what Hh Hrem Hfail
                   | before Hh Hrem Hbefore]; cbn [snd].
  - split; [|done]. split; [by left|]. intros _.
    exists (argv !! 0%nat). apply elem_of_app. right. left.
  - split; [|done]. split; [by right|]. intros _.
    exists (argv !! 0%nat). apply elem_of_app. right. left.
  - assert (forall argv0 : option string,
              printUsage argv0
              ∉ setup_calls env
                ++ config_calls env (parsed env argv main_locals)
                ++ loads ++ [Logger_error what : Call]) as Hno.
    { intros argv0. rewrite !elem_of_app. intros [Hin|[Hin|[Hin|Hin]]].
      - unfold setup_calls in Hin. destruct (DEBUG_defined env).
        + by apply elem_of_nil in Hin.
        + rewrite !elem_of_cons in Hin.
          destruct Hin as [?|[?|Hin]]; try discriminate.
          by apply elem_of_nil in Hin.
      - pose proof (config_no_usage (parsed env argv main_locals)) as Hc.
        rewrite Forall_forall in Hc. exact (Hc _ Hin argv0 eq_refl).
      - pose proof (load_failure_are_loads _ _ _ Hfail) as Hl.
        rewrite Forall_forall in Hl. by apply Hl in Hin.
      - apply list_elem_of_singleton in Hin. discriminate Hin. }
    split.
    + split; [intros [argv0 Hin]; by apply Hno in Hin|].
      intros [?|?]; done.
    + intros [argv0 Hin]. by apply Hno in Hin.
  - destruct (assemble_spec env (parsed env argv main_locals) before)
      as (a & -> & _).
    assert (forall argv0 : option string,
              printUsage argv0
              ∉ before ++ assemble_calls (parsed env argv main_locals) a)
      as Hno.
    { intros argv0. subst before. rewrite !elem_of_app.
      intros [[Hin|[Hin|Hin]]|Hin].
      - unfold setup_calls in Hin. destruct (DEBUG_defined env).
        + by apply elem_of_nil in Hin.
        + rewrite !elem_of_cons in Hin.
          destruct Hin as [?|[?|Hin]]; try discriminate.
          by apply elem_of_nil in Hin.
      - pose proof (config_no_usage (parsed env argv main_locals)) as Hc.
        rewrite Forall_forall in Hc. exact (Hc _ Hin argv0 eq_refl).
      - pose proof (all_loads_are_loads (parsed env argv main_locals)) as Hl.
        rewrite Forall_forall in Hl. by apply Hl in Hin.
      - pose proof (assemble_calls_no_usage
                      (parsed env argv main_locals) a) as Hc.
        rewrite Forall_forall in Hc. exact (Hc _ Hin argv0 eq_refl). }
    split.
    + split; [intros [argv0 Hin]; by apply Hno in Hin|].
      intros [?|?]; done.
    + intros [argv0 Hin]. by apply Hno in Hin.
Qed.

Lemma loads_not_raised_setup :
  Forall (fun c : Call => load_raised c = false) (setup_calls env).
Proof.
  eapply Forall_impl; [apply setup_no_load|]. intros c Hc. by destruct c.
Qed.

Lemma loads_not_raised_config o :
  Forall (fun c : Call => load_raised c = false) (config_calls env o).
Proof.
  eapply Forall_impl; [apply config_no_load|]. intros c Hc. by destruct c.
Qed.

(** X12.  A load that raises is the last load of its run and the only
    one that raised: the calls before it contain no failed load, and
    the one call after it is [Logger::error] with the exception's
    message.  Loading never goes on after a malformed file. *)
Theorem nothing_loaded_after_failure argv pre c post :
  trace env argv = pre ++ c :: post ->
  load_raised c = true ->
  Forall (fun c' => load_raised c' = false) pre
  /\ exists container path what,
       c = loadFromFile container path (ParseException what)
       /\ post = [Logger_error what].
Proof.
  unfold trace.
  pose proof (main_complete env argv) as Hrun.
  destruct Hrun as [Hh | Hh Hrem | loads what Hh Hrem Hfail
                   | before Hh Hrem Hbefore]; cbn [snd];
    intros Hsplit Hraised.
  - assert (c ∈ setup_calls env ++ [printUsage (argv !! 0%nat)]) as Hin
      by (rewrite Hsplit; apply elem_of_app; right; left).
    apply setup_usage_only in Hin as [->|[->| ->]]; discriminate Hraised.
  - assert (c ∈ setup_calls env ++ [printUsage (argv !! 0%nat)]) as Hin
      by (rewrite Hsplit; apply elem_of_app; right; left).
    apply setup_usage_only in Hin as [->|[->| ->]]; discriminate Hraised.
  - destruct (load_failure_split _ _ _ Hfail)
      as (t & container & path & -> & Ht).
    rewrite <- !app_assoc in Hsplit. rewrite !app_assoc in Hsplit.
    rewrite <- (app_assoc _ [_] [_]) in Hsplit. cbn [app] in Hsplit.
    apply (cut_unique load_raised) in Hsplit as (-> & -> & ->);
      [| |by repeat constructor|exact Hraised].
    + split; [|by exists container, path, what].
      rewrite !Forall_app. split_and!;
        [apply loads_not_raised_setup | apply loads_not_raised_config
        | exact Ht].
    + rewrite !Forall_app. split_and!;
        [apply loads_not_raised_setup | apply loads_not_raised_config
        | exact Ht].
  - exfalso.
    destruct (assemble_spec env (parsed env argv main_locals) before)
      as (a & Hcalls & _).
    rewrite Hcalls in Hsplit.
    assert (c ∈ before ++ assemble_calls (parsed env argv main_locals) a)
      as Hin by (rewrite Hsplit; apply elem_of_app; right; left).
    subst before. rewrite !elem_of_app in Hin.
    destruct Hin as [[Hin|[Hin|Hin]]|Hin].
    + apply (no_load_not_raised _ _ (setup_no_load env)) in Hin. congruence.
    + apply (no_load_not_raised _ _ (config_no_load env _)) in Hin.
      congruence.
    + unfold all_loads in Hin. apply elem_of_cons in Hin as [->|Hin].
      * discriminate Hraised.
      * apply loaded_not_raised in Hin. congruence.
    + apply (no_load_not_raised _ _ (assemble_calls_no_load _ _)) in Hin.
      congruence.
Qed.

Lemma failure_has_raised o loads what :
  load_failure env o loads what ->
  exists c : Call, c ∈ loads /\ load_raised c = true.
Proof.
  intros Hfail.
  destruct (load_failure_last _ _ _ _ Hfail) as (t & container & path & ->).
  eexists. split; [apply elem_of_app; right; left | reflexivity].
Qed.

Lemma assembly_run_not_raised o a :
  Forall (fun c : Call => load_raised c = false)
    ((setup_calls env ++ config_calls env o ++ all_loads env o)
     ++ assemble_calls o a).
Proof.
  rewrite !Forall_app. split_and!.
  - apply loads_not_raised_setup.
  - apply loads_not_raised_config.
  - unfold all_loads. constructor; [done|].
    unfold loaded_calls. apply Forall_fmap. by apply Forall_true.
  - eapply Forall_impl; [apply assemble_calls_no_load|].
    intros c Hc. by destruct c.
Qed.

(** X9.  What the exit status tells, in the runs this development
    covers (every call on a collaborator returns, the one exception
    being [ParseException] out of a load).  The status is 0 exactly when
    [-h] was given or the run constructed the repeat graph, and in the
    latter case the run went on to line 247, its last call writing
    [graph_final.gfa].  The status is 1 exactly when [parseArgs] turned
    the command line down (no [-h], not four arguments left) or a load
    raised [ParseException]: a raised [ParseException] is always caught
    and turned into the status 1. *)
Theorem exit_status_meaning argv :
  (exit_status env argv = Some 0%Z
   <-> "h"%char ∈ options_given env argv
       \/ RepeatGraph_ctor seqAssembly ∈ trace env argv)
  /\ (exit_status env argv = Some 1%Z
      <-> (("h"%char ∉ options_given env argv) /\ remaining env argv <> 4%Z)
          \/ (exists c, c ∈ trace env argv /\ load_raised c = true))
  /\ (RepeatGraph_ctor seqAssembly ∈ trace env argv ->
      exists paths,
        last (trace env argv)
        = Some (outGen_outputGfa paths
                  (outFolder (parsed env argv main_locals)
                   +:+ "/graph_final.gfa"))).
Proof.
  unfold trace, exit_status.
  pose proof (main_complete env argv) as Hrun.
  destruct Hrun as [Hh | Hh Hrem | loads what Hh Hrem Hfail
                   | before Hh Hrem Hbefore]; cbn [fst snd].
  - split; [by split; [left|]|]. split.
    + split; [discriminate|]. intros [[Hno _]|(c & Hin & Hc)]; [done|].
      apply setup_usage_only in Hin as [->|[->| ->]]; discriminate Hc.
    + intros Hin.
      by apply (preamble_not_ctor _ _ (setup_usage_preamble argv)) in Hin.
  - assert (RepeatGraph_ctor seqAssembly
            ∉ setup_calls env ++ [printUsage (argv !! 0%nat) : Call])
      as Hno.
    { intros Hin.
      by apply (preamble_not_ctor _ _ (setup_usage_preamble argv)) in Hin. }
    split; [|split; [|by intros Hin]].
    + split; [discriminate|]. by intros [?|?].
    + split; [|done]. intros _. by left.
  - assert (preamble
              (setup_calls env ++ config_calls env (parsed env argv main_locals)
               ++ loads ++ [Logger_error what : Call])) as Hpre.
    { unfold preamble. rewrite !Forall_app. split_and!.
      - apply setup_preamble.
      - apply config_preamble.
      - exact (load_failure_preamble _ _ _ _ Hfail).
      - by repeat constructor. }
    split; [|split].
    + split; [discriminate|]. intros [?|Hin]; [done|].
      by apply (preamble_not_ctor _ _ Hpre) in Hin.
    + split; [|done]. intros _. right.
      destruct (failure_has_raised _ _ _ Hfail) as (c & Hin & Hc).
      exists c. split; [|exact Hc].
      rewrite !elem_of_app. auto.
    + intros Hin. by apply (preamble_not_ctor _ _ Hpre) in Hin.
  - destruct (assemble_spec env (parsed env argv main_locals) before)
      as (a & -> & _).
    split; [|split].
    + split; [|done]. intros _. right.
      apply elem_of_app. right. left.
    + split; [discriminate|]. intros [[_ Hno]|(c & Hin & Hc)]; [done|].
      subst before.
      pose proof (assembly_run_not_raised (parsed env argv main_locals) a)
        as Hall.
      rewrite Forall_forall in Hall. specialize (Hall c Hin). congruence.
    + intros _. eexists. rewrite last_app. reflexivity.
Qed.

Lemma no_reads_load_before o :
  Forall (fun c : Call => loads_reads c = false)
    (setup_calls env ++ config_calls env o
     ++ [loadFromFile seqAssembly (inAssembly o) Loaded]).
Proof.
  rewrite !Forall_app. split_and!.
  - eapply Forall_impl; [apply setup_no_load|]. intros c Hc. by destruct c.
  - eapply Forall_impl; [apply config_no_load|]. intros c Hc. by destruct c.
  - by repeat constructor.
Qed.

Lemma config_has_load o :
  Config_load (configPath o) ∈ (config_calls env o : list Call).
Proof.
  unfold config_calls. rewrite !elem_of_app. right. right.
  do 2 right. left.
Qed.

(** X13.  Whenever a file is loaded into [seqReads], the assembly has
    been loaded from [in_assembly] without error and [Config::load] has
    been called with [config_path]: when the assembly is malformed no
    reads file is touched. *)
Theorem reads_after_assembly argv pre c post :
  trace env argv = pre ++ c :: post ->
  loads_reads c = true ->
  loadFromFile seqAssembly (inAssembly (parsed env argv main_locals)) Loaded
    ∈ pre
  /\ Config_load (configPath (parsed env argv main_locals)) ∈ pre.
Proof.
  set (o := parsed env argv main_locals).
  assert (forall rest : list Call,
    (setup_calls env ++ config_calls env o
     ++ [loadFromFile seqAssembly (inAssembly o) Loaded]) ++ rest
    = pre ++ c :: post ->
    loads_reads c = true ->
    loadFromFile seqAssembly (inAssembly o) Loaded ∈ pre
    /\ Config_load (configPath o) ∈ pre) as Hcut.
  { intros rest Hsplit Hc.
    apply (cut_after loads_reads) in Hsplit as (mid & -> & _);
      [|apply no_reads_load_before|exact Hc].
    rewrite !elem_of_app. split.
    - left. right. right. left.
    - left. right. left. apply config_has_load. }
  unfold trace.
  pose proof (main_complete env argv) as Hrun.
  destruct Hrun as [Hh | Hh Hrem | loads what Hh Hrem Hfail
                   | before Hh Hrem Hbefore]; cbn [snd];
    intros Hsplit Hreads.
  - assert (c ∈ setup_calls env ++ [printUsage (argv !! 0%nat)]) as Hin
      by (rewrite Hsplit; apply elem_of_app; right; left).
    apply setup_usage_only in Hin as [->|[->| ->]]; discriminate Hreads.
  - assert (c ∈ setup_calls env ++ [printUsage (argv !! 0%nat)]) as Hin
      by (rewrite Hsplit; apply elem_of_app; right; left).
    apply setup_usage_only in Hin as [->|[->| ->]]; discriminate Hreads.
  - fold o in Hfail, Hsplit.
    destruct Hfail as [bad | before file after bad Hfiles].
    + exfalso.
      assert (c ∈ setup_calls env ++ config_calls env o
                  ++ [loadFromFile seqAssembly (inAssembly o)
                        (ParseException bad)]
                  ++ [Logger_error bad]) as Hin
        by (rewrite Hsplit; apply elem_of_app; right; left).
      rewrite !elem_of_app in Hin. destruct Hin as [Hin|[Hin|[Hin|Hin]]].
      * pose proof (setup_no_load env) as Hl. rewrite Forall_forall in Hl.
        specialize (Hl _ Hin). by destruct c.
      * pose proof (config_no_load env o) as Hl.
        rewrite Forall_forall in Hl. specialize (Hl _ Hin). by destruct c.
      * apply list_elem_of_singleton in Hin as ->. discriminate Hreads.
      * apply list_elem_of_singleton in Hin as ->. discriminate Hreads.
    + eapply Hcut; [|exact Hreads].
      rewrite <- Hsplit. rewrite <- !app_assoc. cbn [app].
      rewrite <- ?app_assoc. reflexivity.
  - fold o in Hbefore, Hsplit. subst before. unfold all_loads in Hsplit.
    eapply Hcut; [|exact Hreads].
    rewrite <- Hsplit. rewrite <- !app_assoc. cbn [app].
    rewrite <- ?app_assoc. reflexivity.
Qed.

Ltac walk_all H :=
  repeat match type of H with
    | [] = ?m ++ _ :: _ => destruct m; discriminate H
    | _ :: _ = ?m ++ _ :: _ =>
        destruct m as [|? m]; cbn [app] in H; [| injection H as <- H]
    end.

(** X14.  Every writer of the output generator is handed what an
    accessor, called immediately before it, has just returned:
    [proc.getEdgesPaths()] as long as no generation step of the contig
    extender has run, [extender.getUnbranchingPaths()] once
    [generateContigs] has.  No writer receives paths read at an earlier
    stage of the graph. *)
Theorem writers_get_fresh_paths argv pre c post paths :
  trace env argv = pre ++ c :: post ->
  writer_paths c = Some paths ->
  exists pre',
    (pre = pre' ++ [proc_getEdgesPaths]
     /\ paths = GraphProcessor_getEdgesPaths env pre'
     /\ Forall (fun c' => phase_of c' <> Some Extend) pre')
    \/ (pre = pre' ++ [extender_getUnbranchingPaths]
        /\ paths = ContigExtender_getUnbranchingPaths env pre'
        /\ extender_generateContigs
             (graphContinue (parsed env argv main_locals)) ∈ pre').
Proof.
  intros Hsplit Hc.
  destruct (trace_shape env argv)
    as [Hpre|(before & a & Hbefore & Ht & Hanswers & _)].
  { rewrite Hsplit in Hpre. apply Forall_app in Hpre as [_ Hpre].
    apply Forall_cons in Hpre as [Hc' _]. by destruct c. }
  assert (preamble before) as Hpre
    by (subst before; apply before_assembly_preamble).
  assert (Forall (fun c' : Call => phase_of c' <> Some Extend) before)
    as Hearly.
  { eapply Forall_impl; [exact Hpre|]. intros c' Hc'. by destruct c'. }
  rewrite Ht in Hsplit.
  apply cut_after_preamble in Hsplit as (mid & -> & Hmid);
    [|exact Hpre|by destruct c].
  destruct Hanswers as (A1 & A2 & A3 & A4 & A5 & _ & A7 & A8 & A9 & A10).
  clear Ht Hbefore Hpre.
  unfold assemble_calls in *. cbn [take] in *.
  walk_all Hmid.
  all: injection Hmid as <- _; cbn in Hc; try discriminate Hc.
  all: injection Hc as <-.
  all: match goal with
       | |- exists _, (?b ++ ?m = _ /\ _) \/ _ => exists (b ++ removelast m)
       end.
  all: cbn [removelast].
  all: first
    [ left; split_and!;
      [ rewrite <- app_assoc; reflexivity
      | first [exact A1 | exact A2 | exact A3 | exact A4 | exact A5]
      | apply Forall_app; split; [exact Hearly|];
        repeat constructor; discriminate ]
    | right; split_and!;
      [ rewrite <- app_assoc; reflexivity
      | first [exact A7 | exact A8 | exact A9 | exact A10]
      | apply elem_of_app; right; repeat first [left | right] ] ].
Qed.

Lemma load_reads_checked files : forall h : History,
  (reads_load env h files = true ->
   load_reads env files h = (Normal tt, loaded_calls seqReads files))
  /\ (reads_load env h files = false ->
      exists what t, load_reads env files h = (Throws what, t)).
Proof.
  induction files as [|file files IH]; intros h.
  - split; [done|discriminate].
  - cbn [load_reads reads_load]. unfold bind, load.
    destruct (SequenceContainer_loadFromFile env h seqReads file)
      as [|what].
    + cbn beta iota.
      destruct (IH (h ++ [loadFromFile seqReads file Loaded]))
        as [Hok Hbad].
      split; intros Hcheck.
      * by rewrite (Hok Hcheck).
      * destruct (Hbad Hcheck) as (what & t & ->). by eexists _, _.
    + split; [discriminate|]. intros _. by eexists _, _.
Qed.

Lemma load_reads_only_loads files : forall h : History,
  Forall (fun c : Call => is_load c = true) (snd (load_reads env files h)).
Proof.
  induction files as [|file files IH]; intros h.
  - constructor.
  - cbn [load_reads]. unfold bind, load.
    destruct (SequenceContainer_loadFromFile env h seqReads file)
      as [|what].
    + cbn beta iota.
      specialize (IH (h ++ [loadFromFile seqReads file Loaded])).
      destruct (load_reads env files _) as [r t]. cbn [snd] in *.
      by constructor.
    + by repeat constructor.
Qed.

(** How a run goes on after [parseArgs] accepted the command line,
    told by whether the inputs load. *)
Lemma main_by_inputs argv :
  "h"%char ∉ options_given env argv ->
  remaining env argv = 4%Z ->
  let o := parsed env argv main_locals in
  let before := setup_calls env ++ config_calls env o ++ all_loads env o in
  (inputs_load env o = true ->
   main env argv [] = (Normal 0%Z, before ++ snd (assemble env o before)))
  /\ (inputs_load env o = false ->
      exists t, main env argv [] = (Normal 1%Z, t) /\ preamble t).
Proof.
  intros Hh Hrem o before.
  assert (forall early t,
    configure_and_load env o (setup_calls env) = (Normal early, t) ->
    main env argv []
    = match early with
      | Some status => (Normal status, setup_calls env ++ t)
      | None =>
          (Normal 0%Z,
           setup_calls env
           ++ t ++ snd (assemble env o (setup_calls env ++ t)))
      end) as Hmain.
  { intros early t Hconf.
    unfold main. unfold bind at 1. rewrite setup_spec. cbn [app].
    unfold bind at 1. rewrite parseArgs_ok by assumption.
    cbn [fst snd negb]. rewrite app_nil_r. cbn [app]. unfold bind.
    fold o. rewrite Hconf. destruct early as [status|].
    - unfold ret. by rewrite app_nil_r.
    - rewrite (surjective_pairing (assemble _ _ _)).
      by rewrite assemble_returns. }
  assert (configure_and_load env o (setup_calls env)
          = match SequenceContainer_loadFromFile env
                    (setup_calls env ++ config_calls env o)
                    seqAssembly (inAssembly o) with
            | ParseException what =>
                (Normal (Some 1%Z),
                 config_calls env o
                 ++ [loadFromFile seqAssembly (inAssembly o)
                       (ParseException what); Logger_error what])
            | Loaded =>
                match load_reads env (splitString env (readsFasta o) ",")
                        ((setup_calls env ++ config_calls env o)
                         ++ [loadFromFile seqAssembly (inAssembly o) Loaded])
                with
                | (Normal _, t) =>
                    (Normal None,
                     config_calls env o
                     ++ loadFromFile seqAssembly (inAssembly o) Loaded :: t)
                | (Throws what, t) =>
                    (Normal (Some 1%Z),
                     config_calls env o
                     ++ loadFromFile seqAssembly (inAssembly o) Loaded
                        :: t ++ [Logger_error what])
                | (Exits status, t) =>
                    (Exits status,
                     config_calls env o
                     ++ loadFromFile seqAssembly (inAssembly o) Loaded :: t)
                end
            end) as Hconf.
  { unfold configure_and_load, config_calls.
    destruct (decide (logFile o = "")) as [Hlog|Hlog].
    all: cbv [bind call ret try_catch load].
    all: rewrite <- !app_assoc; cbn [app].
    all: destruct (SequenceContainer_loadFromFile env _ seqAssembly _)
           as [|bad]; [|reflexivity].
    all: rewrite <- !app_assoc; cbn [app].
    all: destruct (load_reads env _ _) as [[[]|what|status] t];
           cbn [app]; rewrite ?app_nil_r; reflexivity. }
  unfold inputs_load. fold o.
  destruct (SequenceContainer_loadFromFile env
              (setup_calls env ++ config_calls env o)
              seqAssembly (inAssembly o)) as [|bad] eqn:Hasm.
  - destruct (load_reads_checked (splitString env (readsFasta o) ",")
                ((setup_calls env ++ config_calls env o)
                 ++ [loadFromFile seqAssembly (inAssembly o) Loaded]))
      as [Hok Hbad].
    split; intros Hcheck.
    + rewrite (Hok Hcheck) in Hconf.
      rewrite (Hmain _ _ Hconf). unfold before, all_loads.
      rewrite <- !app_assoc. reflexivity.
    + destruct (Hbad Hcheck) as (what & t & Hreads).
      rewrite Hreads in Hconf. rewrite (Hmain _ _ Hconf).
      eexists. split; [reflexivity|].
      pose proof (load_reads_only_loads (splitString env (readsFasta o) ",")
                    ((setup_calls env ++ config_calls env o)
                     ++ [loadFromFile seqAssembly (inAssembly o) Loaded]))
        as Hloads.
      rewrite Hreads in Hloads. cbn [snd] in Hloads.
      unfold preamble. rewrite !Forall_app. split_and!.
      * apply setup_preamble.
      * apply config_preamble.
      * constructor; [done|]. apply Forall_app. split.
        -- eapply Forall_impl; [exact Hloads|]. intros c Hc. by destruct c.
        -- by repeat constructor.
  - split; [discriminate|]. intros _.
    rewrite (Hmain _ _ Hconf). eexists. split; [reflexivity|].
    unfold preamble. rewrite !Forall_app. split_and!.
    + apply setup_preamble.
    + apply config_preamble.
    + by repeat constructor.
Qed.

(** X16.  The pipeline runs exactly when the command line is accepted
    (no [-h], four arguments left) and the assembly and every listed
    reads file load, each tried after the ones before it.  Nothing else
    is checked before the repeat graph is constructed. *)
Theorem pipeline_runs_iff argv :
  RepeatGraph_ctor seqAssembly ∈ trace env argv
  <-> ("h"%char ∉ options_given env argv)
      /\ remaining env argv = 4%Z
      /\ inputs_load env (parsed env argv main_locals) = true.
Proof.
  split.
  - intros Hreach.
    destruct (trace_shape env argv)
      as [Hpre|(before & a & _ & _ & _ & _ & Hh & Hrem)].
    { by apply (preamble_not_ctor _ _ Hpre) in Hreach. }
    split; [exact Hh|]. split; [exact Hrem|].
    destruct (inputs_load env (parsed env argv main_locals)) eqn:Hcheck;
      [reflexivity|].
    destruct (main_by_inputs argv Hh Hrem) as [_ Hbad].
    destruct (Hbad Hcheck) as (t & Hmain & Hpre).
    unfold trace in Hreach. rewrite Hmain in Hreach.
    by apply (preamble_not_ctor _ _ Hpre) in Hreach.
  - intros (Hh & Hrem & Hcheck).
    destruct (main_by_inputs argv Hh Hrem) as [Hok _].
    unfold trace. rewrite (Hok Hcheck). cbn [snd].
    destruct (assemble_spec env (parsed env argv main_locals)
                (setup_calls env
                 ++ config_calls env (parsed env argv main_locals)
                 ++ all_loads env (parsed env argv main_locals)))
      as (a & -> & _).
    apply elem_of_app. right. left.
Qed.

(** X17.  An empty list of reads files is not turned down: when the
    command line is accepted, the assembly loads and [splitString] cuts
    [reads_files] into no piece at all, the run aligns reads with
    nothing loaded into [seqReads] and ends with status 0. *)
Theorem empty_reads_list_accepted argv :
  "h"%char ∉ options_given env argv ->
  remaining env argv = 4%Z ->
  let o := parsed env argv main_locals in
  SequenceContainer_loadFromFile env
    (setup_calls env ++ config_calls env o) seqAssembly (inAssembly o)
  = Loaded ->
  splitString env (readsFasta o) ","%char = [] ->
  aligner_alignReads ∈ trace env argv
  /\ files_loaded seqReads (trace env argv) = []
  /\ exit_status env argv = Some 0%Z.
Proof.
  intros Hh Hrem o Hasm Hnone.
  assert (inputs_load env o = true) as Hcheck
    by (unfold inputs_load; fold o; by rewrite Hasm, Hnone).
  destruct (main_by_inputs argv Hh Hrem) as [Hok _].
  specialize (Hok Hcheck). fold o in Hok.
  unfold trace, exit_status. rewrite Hok. cbn [fst snd].
  destruct (assemble_spec env o
              (setup_calls env ++ config_calls env o ++ all_loads env o))
    as (a & -> & _).
  split_and!; [|  |reflexivity].
  - apply elem_of_app. right. unfold assemble_calls. do 10 right. left.
  - rewrite !files_loaded_app.
    rewrite (files_loaded_preamble_free seqReads _ (setup_no_load env)).
    rewrite (files_loaded_preamble_free seqReads _ (config_no_load env o)).
    rewrite (files_loaded_preamble_free seqReads _
               (assemble_calls_no_load o a)).
    rewrite files_loaded_reads_of_all, Hnone. reflexivity.
Qed.

End MoreRunFacts.

(** ** Which reads files are loaded *)

Section ListedReads.
Context {Paths Coverage : Type} (env : Externals Paths Coverage).
Local Abbreviation Call := (Call Paths Coverage).

Lemma files_loaded_elem (t : list Call) path r :
  loadFromFile seqReads path r ∈ t -> path ∈ files_loaded seqReads t.
Proof.
  intros Hin. unfold files_loaded. apply list_elem_of_omap.
  exists (loadFromFile seqReads path r). by split.
Qed.

(** X15.  Only listed files are loaded into [seqReads]: whatever the
    outcome of a load, its file is one of the pieces [splitString] cuts
    [reads_files] into, and the files tried so far are the first pieces
    of that list, in list order. *)
Theorem only_listed_reads_loaded argv path r :
  loadFromFile seqReads path r ∈ trace env argv ->
  path ∈ splitString env
           (readsFasta (parsed env argv main_locals)) ","%char
  /\ files_loaded seqReads (trace env argv)
       `prefix_of` splitString env
                     (readsFasta (parsed env argv main_locals)) ","%char.
Proof.
  intros Hin. pose proof (reads_loaded_in_list_order env argv) as Hprefix.
  split; [|exact Hprefix].
  destruct Hprefix as [rest ->].
  apply elem_of_app. left. by eapply files_loaded_elem.
Qed.

End ListedReads.

(** ** Properties of the handlers *)

Section HandlerFacts.
Context {Paths Coverage : Type}.
Local Abbreviation Call := (Call Paths Coverage).
Local Abbreviation History := (History Paths Coverage).

(** The lines logged for the frames: a tab, then the symbol. *)
Lemma log_frames_spec symbols : forall h : History,
  log_frames symbols h
  = (Normal tt,
     map (fun symbol => Logger_error (String "009"%char symbol)) symbols).
Proof.
  induction symbols as [|symbol rest IH]; intros h.
  - reflexivity.
  - cbn [log_frames]. unfold bind, call. rewrite IH. reflexivity.
Qed.

Lemma backtrace_symbols_bound stack : length (backtrace_symbols stack) <= 10.
Proof. unfold backtrace_symbols. rewrite length_take. lia. Qed.

(** X18.  [segfaultHandler] never returns: on every stack it ends the
    process with status 1, after logging the line
    ["Segmentation fault! Backtrace:"] and then one line per frame, a
    tab followed by the frame's symbol, innermost frame first, for the
    ten innermost frames at most; so it logs eleven lines at most. *)
Theorem segfaultHandler_exits stack (h : History) :
  @segfaultHandler Paths Coverage Empty_set stack h
  = (Exits 1,
     Logger_error "Segmentation fault! Backtrace:"
     :: map (fun symbol => Logger_error (String "009"%char symbol))
          (take 10 stack))
  /\ length (snd (@segfaultHandler Paths Coverage Empty_set stack h)) <= 11.
Proof.
  assert (@segfaultHandler Paths Coverage Empty_set stack h
          = (Exits 1,
             Logger_error "Segmentation fault! Backtrace:"
             :: map (fun symbol => Logger_error (String "009"%char symbol))
                  (take 10 stack))) as Hrun.
  { unfold segfaultHandler. cbn zeta. unfold bind at 1, call at 1.
    unfold bind. rewrite log_frames_spec. unfold exit.
    rewrite app_nil_r. reflexivity. }
  split; [exact Hrun|].
  rewrite Hrun. cbn [snd length]. rewrite length_map.
  pose proof (backtrace_symbols_bound stack) as Hb.
  unfold backtrace_symbols in Hb. lia.
Qed.


End HandlerFacts.

(** ** The further properties on the reference instance *)

Example tab_is_character_9 : nat_of_ascii "009" = 9%nat.
Proof. reflexivity. Qed.

Example getopt_on_repeated :
  returned (Reference.posix_getopt Sample.argv_repeated optString)
  = [("k"%char, "17"); ("t"%char, "-1"); ("k"%char, "21"); ("?"%char, "");
     ("l"%char, "run.log"); ("g"%char, "")].
Proof. reflexivity. Qed.

Example segfault_on_deep_stack :
  @segfaultHandler nat nat Empty_set Sample.deep_stack []
  = (Exits 1,
     [Logger_error "Segmentation fault! Backtrace:";
      Logger_error (String "009" "f0"); Logger_error (String "009" "f1");
      Logger_error (String "009" "f2"); Logger_error (String "009" "f3");
      Logger_error (String "009" "f4"); Logger_error (String "009" "f5");
      Logger_error (String "009" "f6"); Logger_error (String "009" "f7");
      Logger_error (String "009" "f8"); Logger_error (String "009" "f9")]).
Proof. reflexivity. Qed.

Lemma last_occurrence_wins_witness :
  kmerSize (parsed Reference.env Sample.argv_repeated main_locals) = 21%Z
  /\ numThreads (parsed Reference.env Sample.argv_repeated main_locals)
     = 18446744073709551615%Z.
Proof.
  assert (parseArgs Reference.env Sample.argv_repeated main_locals []
          = (Normal (true,
                     parsed Reference.env Sample.argv_repeated main_locals),
             [])) as Hparse by (vm_compute; reflexivity).
  destruct (last_occurrence_wins Reference.env Sample.argv_repeated
              main_locals [] _ _ _ Hparse) as (Hk & _ & Ht & _).
  split; [rewrite Hk | rewrite Ht]; reflexivity.
Defined.

Lemma flags_and_log_file_witness :
  graphContinue (parsed Reference.env Sample.argv_repeated main_locals)
  = true
  /\ logFile (parsed Reference.env Sample.argv_repeated main_locals)
     = "run.log".
Proof.
  assert (parseArgs Reference.env Sample.argv_repeated main_locals []
          = (Normal (true,
                     parsed Reference.env Sample.argv_repeated main_locals),
             [])) as Hparse by (vm_compute; reflexivity).
  destruct (flags_and_log_file Reference.env Sample.argv_repeated
              main_locals [] _ _ _ Hparse) as (_ & Hg & Hl).
  split; [|rewrite Hl; reflexivity].
  apply Hg. vm_compute. repeat constructor.
Defined.

Lemma parameters_injected_witness :
  exists o,
    parseArgs Reference.env Reference.argv_options main_locals
      (setup_calls Reference.env) = (Normal (true, o), [])
    /\ minOverlap o = 3000%Z /\ kmerSize o = 17%Z /\ numThreads o = 8%Z
    /\ List.filter sets_parameter
         (take 12 (trace Reference.env Reference.argv_options))
       = [Parameters_set_minimumOverlap 3000%Z;
          Parameters_set_kmerSize 17%Z;
          Parameters_set_numThreads 8%Z].
Proof.
  assert (trace Reference.env Reference.argv_options
          = take 12 (trace Reference.env Reference.argv_options)
            ++ RepeatGraph_ctor seqAssembly
               :: drop 13 (trace Reference.env Reference.argv_options))
    as Hsplit by (vm_compute; reflexivity).
  destruct (proj2 (parameters_injected Reference.env Reference.argv_options)
              _ _ _ Hsplit eq_refl)
    as (o & Hparse & Hstores & _).
  destruct (proj1 (parameters_injected Reference.env Reference.argv_options)
              _ _ _ _ _ Hparse)
    as (Hv & Hk & Ht & _).
  exists o. split; [exact Hparse|].
  split; [rewrite Hv; reflexivity|].
  split; [rewrite Hk; reflexivity|].
  split; [rewrite Ht; reflexivity|].
  rewrite Hstores, Hv, Hk, Ht. reflexivity.
Defined.

Lemma positional_arguments_witness :
  parseArgs Reference.env Reference.argv_options main_locals []
  = (Normal (true,
             parsed Reference.env Reference.argv_options main_locals), [])
  /\ exists o,
       parseArgs Reference.env Reference.argv_options main_locals []
       = (Normal (true, o), [])
       /\ [inAssembly o; readsFasta o; outFolder o; configPath o]
          = ["asm.fasta"; "r1.fasta"; "out"; "cfg"].
Proof.
  split; [vm_compute; reflexivity|].
  destruct (positional_arguments Reference.env Reference.argv_options
              main_locals [])
    as (o & Hparse & Hrest).
  - apply (bool_decide_eq_false_1
             ("h"%char ∈ options_given Reference.env Reference.argv_options)).
    vm_compute. reflexivity.
  - vm_compute. reflexivity.
  - exists o. split; [exact Hparse|]. rewrite <- Hrest.
    vm_compute. reflexivity.
Defined.

Lemma rejection_leaves_positionals_witness :
  exists o,
    parseArgs Reference.env Reference.argv_short Sample.stale_locals []
    = (Normal (false, o), [printUsage (Some "repeat")])
    /\ [inAssembly o; readsFasta o; outFolder o; configPath o]
       = ["old.fasta"; "old_reads.fasta"; "old_out"; "old.cfg"].
Proof.
  assert (parseArgs Reference.env Reference.argv_short Sample.stale_locals []
          = (Normal (false,
                     scanned Reference.env Reference.argv_short
                       Sample.stale_locals),
             [printUsage (Some "repeat")])) as Hparse
    by (vm_compute; reflexivity).
  exists (scanned Reference.env Reference.argv_short Sample.stale_locals).
  split; [exact Hparse|].
  destruct (rejection_leaves_positionals Reference.env Reference.argv_short
              Sample.stale_locals [] _ _ Hparse)
    as (_ & -> & -> & -> & ->).
  reflexivity.
Defined.

Lemma values_pass_through_witness :
  true = debug (parsed Reference.env Reference.argv_options main_locals).
Proof.
  assert (Logger_setDebugging true
          ∈ trace Reference.env Reference.argv_options) as Hin
    by find_call.
  exact (values_pass_through Reference.env Reference.argv_options _ Hin).
Defined.

Lemma outputs_and_their_stage_witness :
  outputs_with_progress 0 (trace Reference.env Sample.argv_repeated)
  = ("run.log", 0%nat)
    :: expected_outputs
         (parsed Reference.env Sample.argv_repeated main_locals).
Proof.
  assert (RepeatGraph_ctor seqAssembly
          ∈ trace Reference.env Sample.argv_repeated) as Hreach
    by find_call.
  exact (proj1 (outputs_and_their_stage Reference.env Sample.argv_repeated)
           Hreach).
Defined.

Lemma nothing_loaded_after_failure_witness :
  Forall (fun c => load_raised c = false)
    (take 12 (trace Reference.env Reference.argv_bad_reads)).
Proof.
  assert (trace Reference.env Reference.argv_bad_reads
          = take 12 (trace Reference.env Reference.argv_bad_reads)
            ++ loadFromFile seqReads "broken.fasta"
                 (ParseException "parse error")
               :: drop 13 (trace Reference.env Reference.argv_bad_reads))
    as Hsplit by (vm_compute; reflexivity).
  exact (proj1 (nothing_loaded_after_failure Reference.env
                  Reference.argv_bad_reads _ _ _ Hsplit eq_refl)).
Defined.

Lemma reads_after_assembly_witness :
  Config_load
    (configPath (parsed Reference.env Reference.argv_plain main_locals))
  ∈ take 11 (trace Reference.env Reference.argv_plain).
Proof.
  assert (trace Reference.env Reference.argv_plain
          = take 11 (trace Reference.env Reference.argv_plain)
            ++ loadFromFile seqReads "r1.fasta" Loaded
               :: drop 12 (trace Reference.env Reference.argv_plain))
    as Hsplit by (vm_compute; reflexivity).
  exact (proj2 (reads_after_assembly Reference.env Reference.argv_plain
                  _ _ _ Hsplit eq_refl)).
Defined.

Lemma writers_get_fresh_paths_witness :
  exists pre',
    take 20 (trace Reference.env Reference.argv_plain)
    = pre' ++ [proc_getEdgesPaths]
    /\ 19%nat = GraphProcessor_getEdgesPaths Reference.env pre'.
Proof.
  assert (trace Reference.env Reference.argv_plain
          = take 20 (trace Reference.env Reference.argv_plain)
            ++ outGen_outputDot 19%nat "out/graph_raw.dot"
               :: drop 21 (trace Reference.env Reference.argv_plain))
    as Hsplit by (vm_compute; reflexivity).
  destruct (writers_get_fresh_paths Reference.env Reference.argv_plain
              _ _ _ 19%nat Hsplit eq_refl)
    as (pre' & [(Hpre & Hpaths & _)|(Hpre & _ & Hin)]).
  - exists pre'. split; [exact Hpre | exact Hpaths].
  - exfalso.
    assert (extender_generateContigs
              (graphContinue
                 (parsed Reference.env Reference.argv_plain main_locals))
            ∈ take 20 (trace Reference.env Reference.argv_plain)) as Hin'
      by (rewrite Hpre; apply elem_of_app; by left).
    vm_compute in Hin'.
    repeat (apply elem_of_cons in Hin' as [Hin'|Hin']; [discriminate Hin'|]).
    by apply elem_of_nil in Hin'.
Defined.

Lemma empty_reads_list_accepted_witness :
  exit_status Reference.env Sample.argv_no_reads = Some 0%Z.
Proof.
  refine (proj2 (proj2 (empty_reads_list_accepted Reference.env
                          Sample.argv_no_reads _ _ _ _))).
  - no_option.
  - vm_compute. reflexivity.
  - vm_compute. reflexivity.
  - vm_compute. reflexivity.
Defined.

Lemma only_listed_reads_loaded_witness :
  "r1.fasta"
  ∈ splitString Reference.env
      (readsFasta (parsed Reference.env Reference.argv_bad_reads main_locals))
      ","%char.
Proof.
  refine (proj1 (only_listed_reads_loaded Reference.env
                   Reference.argv_bad_reads "r1.fasta" Loaded _)).
  find_call.
Defined.
